(** * Translation service: sanitizer, chunker, provider chain, sentiment
      tagger, batch translation and the HTTP translate endpoint.

    Shallow embedding of the TypeScript sources

    - the translation service (stripHtml, translateToTurkish,
      translateBatch, summarizeAndTranslate, summarizeInEnglish), and
    - src/app/api/translate/route.ts (stripHtml, POST).

    JavaScript strings are sequences of UTF-16 code units; a code unit is
    a number [N].  Regular expressions are kept as syntax trees and run
    by a backtracking matcher that follows the ECMAScript matching order
    (greedy quantifiers, ordered alternation, leftmost match).

    What the program calls but does not contain is a parameter: the
    text extraction of the cheerio library, [toLowerCase], and the
    replies of the two translation providers.  An asynchronous function
    is a tree of provider requests ([Prog]); the call stack is bounded,
    and a call that does not fit raises RangeError. *)

From Stdlib Require Import NArith Lia List Bool String Ascii QArith.
From stdpp Require Import base list.

Open Scope N_scope.
Open Scope nat_scope.
Open Scope list_scope.

(* ------------------------------------------------------------------ *)
(** ** JavaScript strings *)

Module JS.

(** A string value: its UTF-16 code units, in order. *)
Definition jsstring : Type := list N.

(** An ASCII literal as a JavaScript string. *)
Definition js (s : string) : jsstring :=
  List.map N_of_ascii (list_ascii_of_string s).

(** [s.length] *)
Definition strlen (s : jsstring) : nat := length s.

(** Truthiness of a string: every string but the empty one. *)
Definition truthy (s : jsstring) : bool :=
  match s with [] => false | _ :: _ => true end.

Definition str_eqb (a b : jsstring) : bool :=
  bool_decide (a = b).

(** WhiteSpace and LineTerminator code units of ECMAScript: what [\s]
    matches and what [trim] removes. *)
Definition isWhiteSpace (c : N) : bool :=
  ((9 <=? c) && (c <=? 13) || (c =? 32) || (c =? 160) || (c =? 5760)
   || (8192 <=? c) && (c <=? 8202) || (c =? 8232) || (c =? 8233)
   || (c =? 8239) || (c =? 8287) || (c =? 12288) || (c =? 65279))%N.

(** [\w] without the unicode flag: [A-Za-z0-9_]. *)
Definition isWordChar (c : N) : bool :=
  ((48 <=? c) && (c <=? 57) || (65 <=? c) && (c <=? 90)
   || (97 <=? c) && (c <=? 122) || (c =? 95))%N.

Definition isUpperAscii (c : N) : bool := ((65 <=? c) && (c <=? 90))%N.
Definition isLowerAscii (c : N) : bool := ((97 <=? c) && (c <=? 122))%N.

(** Case mapping of one Basic Latin code unit. *)
Definition lowerAscii (c : N) : N := if isUpperAscii c then (c + 32)%N else c.

(** [s.toLowerCase()] on text of the Basic Latin block. *)
Definition asciiLower (s : jsstring) : jsstring := List.map lowerAscii s.

Definition isAscii (s : jsstring) : Prop := Forall (fun c => (c < 128)%N) s.

Fixpoint dropWhile (p : N -> bool) (s : jsstring) : jsstring :=
  match s with
  | [] => []
  | c :: s' => if p c then dropWhile p s' else s
  end.

Fixpoint takeWhile (p : N -> bool) (s : jsstring) : jsstring :=
  match s with
  | [] => []
  | c :: s' => if p c then c :: takeWhile p s' else []
  end.

(** [s.trim()] *)
Definition trimStart (s : jsstring) : jsstring := dropWhile isWhiteSpace s.
Definition trimEnd (s : jsstring) : jsstring := rev (dropWhile isWhiteSpace (rev s)).
Definition trim (s : jsstring) : jsstring := trimEnd (trimStart s).

(** [s.split('|')[0]]: the text before the first pipe. *)
Definition pipe : N := 124%N.
Definition beforePipe (s : jsstring) : jsstring :=
  takeWhile (fun c => negb (c =? pipe)%N) s.

(** [a || b] on strings. *)
Definition orElse (a b : jsstring) : jsstring := if truthy a then a else b.

(** [parts.join(sep)] *)
Fixpoint join (sep : jsstring) (parts : list jsstring) : jsstring :=
  match parts with
  | [] => []
  | [p] => p
  | p :: rest => p ++ sep ++ join sep rest
  end.

End JS.
Export JS.

(* ------------------------------------------------------------------ *)
(** ** Regular expressions *)

Module Regex.

Inductive regex : Type :=
| Eps                          (* the empty pattern *)
| Class (p : N -> bool)        (* one code unit of a class *)
| Seq (r1 r2 : regex)
| Alt (r1 r2 : regex)          (* r1|r2, r1 tried first *)
| Star (r : regex)             (* r*, greedy *)
| Bol                          (* ^ *)
| WordBoundary.                (* \b *)

Definition Plus (r : regex) : regex := Seq r (Star r).
Definition Opt (r : regex) : regex := Alt r Eps.

Fixpoint Cat (rs : list regex) : regex :=
  match rs with
  | [] => Eps
  | [r] => r
  | r :: rs' => Seq r (Cat rs')
  end.

Fixpoint AnyOf (rs : list regex) : regex :=
  match rs with
  | [] => Class (fun _ => false)
  | [r] => r
  | r :: rs' => Alt r (AnyOf rs')
  end.

Definition Chr (c : N) : regex := Class (N.eqb c).

(** A literal, and a literal under the [i] flag.  Without the unicode
    flag a Basic Latin letter of the pattern matches exactly its two
    cases. *)
Definition Lit (s : jsstring) : regex := Cat (List.map Chr s).
Definition ChrI (c : N) : regex :=
  Class (fun d => (lowerAscii d =? lowerAscii c)%N).
Definition LitI (s : jsstring) : regex := Cat (List.map ChrI s).

Definition isWordOpt (c : option N) : bool :=
  match c with Some d => isWordChar d | None => false end.

Section Matcher.
Context {R : Type}.

(** A continuation receives the code unit before the current position
    (none at the start of the input) and the rest of the input. *)
Definition cont : Type := option N -> jsstring -> option R.

(** Greedy iteration.  An iteration that consumes nothing is refused, as
    in ECMAScript, so at most [length s] iterations can succeed. *)
Fixpoint star_loop (step : option N -> jsstring -> cont -> option R)
    (fuel : nat) (prev : option N) (s : jsstring) (k : cont) : option R :=
  match fuel with
  | O => k prev s
  | S fuel' =>
      match step prev s
              (fun prev' s' =>
                 if length s' <? length s
                 then star_loop step fuel' prev' s' k else None) with
      | Some x => Some x
      | None => k prev s
      end
  end.

Fixpoint m (r : regex) (prev : option N) (s : jsstring) (k : cont)
    : option R :=
  match r with
  | Eps => k prev s
  | Class p =>
      match s with
      | c :: s' => if p c then k (Some c) s' else None
      | [] => None
      end
  | Seq a b => m a prev s (fun prev' s' => m b prev' s' k)
  | Alt a b =>
      match m a prev s k with
      | Some x => Some x
      | None => m b prev s k
      end
  | Star a => star_loop (m a) (length s) prev s k
  | Bol => match prev with None => k prev s | Some _ => None end
  | WordBoundary =>
      if xorb (isWordOpt prev) (isWordOpt (head s)) then k prev s else None
  end.

End Matcher.

(** Length of the match of [r] that starts at the current position. *)
Definition matchAt (r : regex) (prev : option N) (s : jsstring) : option nat :=
  m r prev s (fun _ rest => Some (length s - length rest)).

(** [re.test(s)] / truthiness of [s.match(re)] without the [g] flag. *)
Fixpoint search_from (r : regex) (prev : option N) (s : jsstring) : bool :=
  match matchAt r prev s with
  | Some _ => true
  | None =>
      match s with
      | [] => false
      | c :: s' => search_from r (Some c) s'
      end
  end.

Definition test (r : regex) (s : jsstring) : bool := search_from r None s.

(** [s.replace(re, rep)] with the [g] flag.  [skip] counts the code
    units of the current match still to be dropped. *)
Fixpoint replace_from (r : regex) (rep : jsstring) (prev : option N)
    (s : jsstring) (skip : nat) {struct s} : jsstring :=
  match s with
  | [] =>
      match skip, matchAt r prev [] with
      | O, Some _ => rep
      | _, _ => []
      end
  | c :: s' =>
      match skip with
      | S n => replace_from r rep (Some c) s' n
      | O =>
          match matchAt r prev s with
          | Some (S n) => rep ++ replace_from r rep (Some c) s' n
          | Some O => rep ++ c :: replace_from r rep (Some c) s' 0
          | None => c :: replace_from r rep (Some c) s' 0
          end
      end
  end.

Definition replaceAll (r : regex) (rep : jsstring) (s : jsstring) : jsstring :=
  replace_from r rep None s 0.

(** [s.match(re)] with the [g] flag: every match, left to right; the
    empty list stands for [null]. *)
Fixpoint matches_from (r : regex) (prev : option N) (s : jsstring)
    (skip : nat) {struct s} : list jsstring :=
  match s with
  | [] =>
      match skip, matchAt r prev [] with
      | O, Some _ => [[]]
      | _, _ => []
      end
  | c :: s' =>
      match skip with
      | S n => matches_from r (Some c) s' n
      | O =>
          match matchAt r prev s with
          | Some (S n) => firstn (S n) s :: matches_from r (Some c) s' n
          | Some O => [] :: matches_from r (Some c) s' 0
          | None => matches_from r (Some c) s' 0
          end
      end
  end.

Definition matchAll (r : regex) (s : jsstring) : list jsstring :=
  matches_from r None s 0.

(** Patterns without [\b]: whether they match at a position does not
    depend on where the text ends. *)
Fixpoint boundaryFree (r : regex) : bool :=
  match r with
  | Eps | Class _ | Bol => true
  | Seq a b | Alt a b => boundaryFree a && boundaryFree b
  | Star a => boundaryFree a
  | WordBoundary => false
  end.

End Regex.
Export Regex.

(* ------------------------------------------------------------------ *)
(** ** HTML sanitizer of the translation service *)

Module Sanitizer.

Definition notWhiteSpace (c : N) : bool := negb (isWhiteSpace c).
Definition notWhiteSpaceAmp (c : N) : bool :=
  negb (isWhiteSpace c || (c =? 38)%N).
(** [[a-z_]] under the [i] flag *)
Definition letterOrUnderscore (c : N) : bool :=
  isLowerAscii (lowerAscii c) || (c =? 95)%N.

(** [/https?:\/\/[^\s]+/g] *)
Definition reHttp : regex :=
  Cat [Lit (js "http"); Opt (Lit (js "s")); Lit (js "://"); Plus (Class notWhiteSpace)].
(** [/www\.[^\s]+/g] *)
Definition reWww : regex := Cat [Lit (js "www."); Plus (Class notWhiteSpace)].
(** [/t\.co\/[^\s]+/g] *)
Definition reTco : regex := Cat [Lit (js "t.co/"); Plus (Class notWhiteSpace)].
(** [/source=(twitter|web|facebook|instagram|reddit|telegram)[^\s]*/gi] *)
Definition reSource : regex :=
  Cat [LitI (js "source=");
       AnyOf [LitI (js "twitter"); LitI (js "web"); LitI (js "facebook");
              LitI (js "instagram"); LitI (js "reddit"); LitI (js "telegram")];
       Star (Class notWhiteSpace)].
(** [/utm_[a-z_]+=\[^\s&]*/gi]: the bracket is escaped in the source, so
    what follows [=] is a literal [[], the assertion [^], one white
    space, [&] and any number of []]. *)
Definition reUtm : regex :=
  Cat [LitI (js "utm_"); Plus (Class letterOrUnderscore); Lit (js "=");
       Lit (js "["); Bol; Class isWhiteSpace; Lit (js "&"); Star (Lit (js "]"))].
(** [/ref=[^\s&]*/gi] *)
Definition reRef : regex := Cat [LitI (js "ref="); Star (Class notWhiteSpaceAmp)].
(** [/\?[a-z_]+=\w+(&[a-z_]+=\w+)*/gi] *)
Definition reQuery : regex :=
  let param := Cat [Plus (Class letterOrUnderscore); Lit (js "="); Plus (Class isWordChar)] in
  Cat [Lit (js "?"); param; Star (Seq (Lit (js "&")) param)].
(** [/RSVP:/gi], [/Read more:/gi], [/Click here:/gi] *)
Definition reRsvp : regex := LitI (js "RSVP:").
Definition reReadMore : regex := LitI (js "Read more:").
Definition reClickHere : regex := LitI (js "Click here:").
(** [/\[…\]/g] (the ellipsis is U+2026) and [/\[\.\.\.]/g] *)
Definition reEllipsis : regex := Lit [91; 8230; 93]%N.
Definition reDots : regex := Lit (js "[...]").
(** [/\s+/g], [/\n\s*\n/g] and, in the fallback, [/<[^>]*>/g] *)
Definition reSpaces : regex := Plus (Class isWhiteSpace).
Definition reBlankLines : regex := Cat [Chr 10; Star (Class isWhiteSpace); Chr 10].
Definition reTag : regex :=
  Cat [Lit (js "<"); Star (Class (fun c => negb (c =? 62)%N)); Lit (js ">")].

(** The patterns removed as noise, in the order the sanitizer applies
    them. *)
Definition noisePatterns : list regex :=
  [reHttp; reWww; reTco; reSource; reUtm; reRef; reQuery;
   reRsvp; reReadMore; reClickHere; reEllipsis; reDots].

Definition removeNoise (text : jsstring) : jsstring :=
  fold_left (fun t r => replaceAll r [] t) noisePatterns text.

(** [.replace(/\s+/g, ' ').replace(/\n\s*\n/g, '\n').trim()] *)
Definition cleanWhiteSpace (text : jsstring) : jsstring :=
  trim (replaceAll reBlankLines [10%N] (replaceAll reSpaces (js " ") text)).

Section WithParser.

(** The HTML parser is the cheerio library, which is not part of the
    program: [cheerioText html] is the value of
    [$('body').text() || $.text()] after [$ = cheerio.load(html)] and
    [$('script, style').remove()], or [None] when one of these calls
    throws. *)
Variable cheerioText : jsstring -> option jsstring.

(** The [try] block of stripHtml, after the text has been extracted. *)
Definition cleanText (text : jsstring) : jsstring :=
  let text := orElse (beforePipe text) text in
  let text := removeNoise text in
  let text := cleanWhiteSpace text in
  if strlen text <? 10 then [] else text.

(** The [catch] block of stripHtml.  [||] binds looser than the method
    chain on its right. *)
Definition stripTags (html : jsstring) : jsstring :=
  orElse (beforePipe (replaceAll reTag (js " ") html))
         (trim (replaceAll reSpaces (js " ") (replaceAll reHttp [] html))).

Definition stripHtml (html : jsstring) : jsstring :=
  match cheerioText html with
  | Some text => cleanText text
  | None => stripTags html
  end.

End WithParser.

(** A parser for text without markup: the text of the document is the
    input itself. *)
Definition plainText (html : jsstring) : option jsstring := Some html.

(** Text free of markup: the parser extracts the text as it is. *)
Definition markupFree (cheerioText : jsstring -> option jsstring)
    (text : jsstring) : Prop :=
  cheerioText text = Some text.

(** A text without a pipe, or one that begins with a pipe: the text
    that [text.split('|')[0] || text] chooses is then the text itself. *)
Definition pipeFixed (s : jsstring) : Prop :=
  ~ In pipe s \/ exists s', s = pipe :: s'.

(** Text free of noise: none of the noise patterns occurs in it. *)
Definition noiseFree (text : jsstring) : bool :=
  forallb (fun r => negb (test r text)) noisePatterns.

(** Every run of white space becomes one space; [inRun] tells that the
    space of the current run is already written. *)
Fixpoint squeeze (inRun : bool) (s : jsstring) : jsstring :=
  match s with
  | [] => []
  | c :: s' =>
      if isWhiteSpace c
      then (if inRun then squeeze true s' else 32%N :: squeeze true s')
      else c :: squeeze false s'
  end.

(** The only white space is the space, and no two spaces are adjacent;
    [afterSpace] tells that a space comes just before. *)
Fixpoint spacedFrom (afterSpace : bool) (s : jsstring) : bool :=
  match s with
  | [] => true
  | c :: s' =>
      if isWhiteSpace c
      then (c =? 32)%N && negb afterSpace && spacedFrom true s'
      else spacedFrom false s'
  end.

End Sanitizer.
Export Sanitizer.

(* ------------------------------------------------------------------ *)
(** ** Programs that call the translation providers *)

Module Effects.

Inductive provider : Type := Google | LibreTranslate.

Inductive exn : Type :=
| ProviderError      (* a provider function threw *)
| RangeError.        (* the call stack is exhausted *)

(** A program is a tree of provider requests.  [Call p text k] sends
    [text] to provider [p] and goes on with [k reply]; the reply is the
    text extracted from the HTTP response ([translations.join('')] for
    Google, [data.translatedText] for LibreTranslate), or [None] when
    the request or the decoding of its response throws. *)
Inductive Prog (A : Type) : Type :=
| Ret (a : A)
| Throw (e : exn)
| Call (p : provider) (text : jsstring) (k : option jsstring -> Prog A).

Arguments Ret {A} a.
Arguments Throw {A} e.
Arguments Call {A} p text k.

Fixpoint bind {A B : Type} (c : Prog A) (f : A -> Prog B) : Prog B :=
  match c with
  | Ret a => f a
  | Throw e => Throw e
  | Call p text k => Call p text (fun r => bind (k r) f)
  end.

(** [try { c } catch (e) { h e }] *)
Fixpoint try_catch {A : Type} (c : Prog A) (h : exn -> Prog A) : Prog A :=
  match c with
  | Ret a => Ret a
  | Throw e => h e
  | Call p text k => Call p text (fun r => try_catch (k r) h)
  end.

#[export] Instance Prog_ret : MRet Prog := fun A a => Ret a.
#[export] Instance Prog_bind : MBind Prog := fun A B f c => bind c f.

(** The requests made so far, oldest first. *)
Definition Log : Type := list (provider * jsstring).

(** The outside world: what a provider answers to a request, given
    everything that was asked before. *)
Definition Oracle : Type := Log -> provider -> jsstring -> option jsstring.

Fixpoint run {A : Type} (o : Oracle) (log : Log) (c : Prog A)
    : (exn + A) * Log :=
  match c with
  | Ret a => (inr a, log)
  | Throw e => (inl e, log)
  | Call p text k => run o (log ++ [(p, text)]) (k (o log p text))
  end.

(** A program none of whose runs ends in an exception. *)
Inductive noThrow {A : Type} : Prog A -> Prop :=
| noThrow_ret a : noThrow (Ret a)
| noThrow_call p text k :
    (forall r, noThrow (k r)) -> noThrow (Call p text k).

(** [returns c a]: some sequence of replies makes [c] return [a]. *)
Inductive returns {A : Type} : Prog A -> A -> Prop :=
| returns_ret a : returns (Ret a) a
| returns_call p text k r a :
    returns (k r) a -> returns (Call p text k) a.

End Effects.
Export Effects.

(* ------------------------------------------------------------------ *)
(** ** The translation service *)

Module Translate.

Section Service.

Variable cheerioText : jsstring -> option jsstring.

(** [String.prototype.toLowerCase], a function of the Unicode case
    tables of the platform. *)
Variable toLowerCase : jsstring -> jsstring.

Abbreviation stripHtml := (Sanitizer.stripHtml cheerioText).

(** [!s || s.trim().length === 0] *)
Definition blank (s : jsstring) : bool :=
  negb (truthy s) || (strlen (trim s) =? 0).

(** The last check of translateWithGoogle and of
    translateWithLibreTranslate: a blank result is an error. *)
Definition checked (reply : option jsstring) : Prog jsstring :=
  match reply with
  | None => Throw ProviderError
  | Some translation =>
      if blank translation then Throw ProviderError else Ret translation
  end.

Definition translateWithGoogle (text : jsstring) : Prog jsstring :=
  Call Google text checked.

Definition translateWithLibreTranslate (text : jsstring) : Prog jsstring :=
  Call LibreTranslate text checked.

(** "Verify translation quality": the test applied to the result of
    either provider. *)
Definition accepted (translation cleanText : jsstring) : bool :=
  truthy translation
  && negb (str_eqb (toLowerCase translation) (toLowerCase cleanText))
  && (10 <? strlen translation).

(** One [try { ... if (accepted) return t } catch { }] block:
    [Some t] when the block returns [t], [None] when control falls
    through to the statement after it. *)
Definition attempt (call : Prog jsstring) (cleanText : jsstring)
    : Prog (option jsstring) :=
  try_catch
    (t ← call; if accepted t cleanText then Ret (Some t) else Ret None)
    (fun _ => Ret None).

(** A provider fails on [cleanText]: its function throws, or its result
    does not pass the test. *)
Definition providerFails (cleanText : jsstring) (reply : option jsstring)
    : Prop :=
  checked reply = Throw ProviderError
  \/ exists t, checked reply = Ret t /\ accepted t cleanText = false.

(** What one attempt yields from the reply of its provider. *)
Definition verdict (cleanText : jsstring) (reply : option jsstring)
    : option jsstring :=
  match reply with
  | None => None
  | Some t => if blank t then None else if accepted t cleanText then Some t else None
  end.

Definition maxChunkSize : nat := 500.

Definition isTerminator (c : N) : bool :=
  ((c =? 46) || (c =? 33) || (c =? 63))%N.

(** [/[^.!?]+[.!?]+/g] *)
Definition reSentence : regex :=
  Seq (Plus (Class (fun c => negb (isTerminator c))))
      (Plus (Class isTerminator)).

(** [cleanText.match(/[^.!?]+[.!?]+/g) || [cleanText]] *)
Definition sentencesOf (cleanText : jsstring) : list jsstring :=
  match matchAll reSentence cleanText with
  | [] => [cleanText]
  | sentences => sentences
  end.

(** A text whose last code unit is a terminator. *)
Definition terminated (s : jsstring) : Prop :=
  exists c, last s = Some c /\ isTerminator c = true.

Definition flush (currentChunk : jsstring) : list jsstring :=
  if truthy currentChunk then [currentChunk] else [].

(** The packing loop, from the state [currentChunk]. *)
Fixpoint pack (currentChunk : jsstring) (sentences : list jsstring)
    : list jsstring :=
  match sentences with
  | [] => flush currentChunk
  | sentence :: rest =>
      if strlen (currentChunk ++ sentence) <=? maxChunkSize
      then pack (currentChunk ++ sentence) rest
      else flush currentChunk ++ pack sentence rest
  end.

Definition chunksOf (cleanText : jsstring) : list jsstring :=
  pack [] (sentencesOf cleanText).

(** The [try] block of translateToTurkish; [recur] is the recursive
    call. *)
Definition translateBody (recur : jsstring -> Prog jsstring)
    (text : jsstring) : Prog jsstring :=
  if blank text then Ret text else
  let cleanText := stripHtml text in
  if blank cleanText then Ret text else
  if maxChunkSize <? strlen cleanText then
    translatedChunks ← mapM recur (chunksOf cleanText);
    Ret (join (js " ") translatedChunks)
  else
    google ← attempt (translateWithGoogle cleanText) cleanText;
    match google with
    | Some googleTranslation => Ret googleTranslation
    | None =>
        libre ← attempt (translateWithLibreTranslate cleanText) cleanText;
        match libre with
        | Some libreTranslation => Ret libreTranslation
        | None => Ret cleanText
        end
    end.

(** translateToTurkish, run with room for [depth] nested calls on the
    call stack.  A call that does not fit raises RangeError where it is
    made, inside the [try] block of its caller. *)
Fixpoint translateToTurkish (depth : nat) (text : jsstring) : Prog jsstring :=
  try_catch
    (translateBody
       (match depth with
        | O => fun _ => Throw RangeError
        | S d => translateToTurkish d
        end) text)
    (fun _ => Ret (stripHtml text)).

(** translateText *)
Inductive lang : Type := Tr | En.

Definition translateText (depth : nat) (text : jsstring) (targetLang : lang)
    : Prog jsstring :=
  match targetLang with
  | En => Ret (stripHtml text)
  | Tr => translateToTurkish depth text
  end.

(** *** Sentiment tagger and summaries *)

Inductive Sentiment : Type := Positive | Negative | Neutral.

Record SummaryWithSentiment : Type :=
  { summary : jsstring; sentiment : Sentiment }.

(** [/\b(w1|w2|...)\b/i] *)
Definition keywords (words : list string) : regex :=
  Cat [WordBoundary; AnyOf (List.map (fun w => LitI (js w)) words); WordBoundary].

Definition rePositive : regex :=
  keywords ["up"; "rise"; "gain"; "bull"; "surge"; "rally"; "boost"; "grow";
            "positive"; "profit"; "success"; "launch"; "partner"; "adoption"]%string.

Definition reNegative : regex :=
  keywords ["down"; "fall"; "drop"; "bear"; "crash"; "decline"; "loss";
            "negative"; "hack"; "scam"; "fail"; "lawsuit"; "ban"; "regulate"]%string.

(** [`${title} ${text || ''}`.toLowerCase()]; [text] is optional. *)
Definition contentOf (title : jsstring) (text : option jsstring) : jsstring :=
  toLowerCase (title ++ js " " ++ match text with Some t => t | None => [] end).

(** The tagger, as both summarizeAndTranslate and summarizeInEnglish
    have it: two assignments in a row. *)
Definition sentimentOf (title : jsstring) (text : option jsstring) : Sentiment :=
  let content := contentOf title text in
  let sentiment := Neutral in
  let sentiment := if test rePositive content then Positive else sentiment in
  let sentiment := if test reNegative content then Negative else sentiment in
  sentiment.

Definition summarizeAndTranslate (depth : nat) (title : jsstring)
    (text : option jsstring) : Prog SummaryWithSentiment :=
  try_catch
    (translatedTitle ← translateToTurkish depth title;
     Ret {| summary := if truthy translatedTitle && (8 <? strlen translatedTitle)
                       then translatedTitle else title;
            sentiment := sentimentOf title text |})
    (fun _ => Ret {| summary := title; sentiment := Neutral |}).

Definition summarizeInEnglish (title : jsstring) (text : option jsstring)
    : Prog SummaryWithSentiment :=
  try_catch
    (Ret {| summary := title; sentiment := sentimentOf title text |})
    (fun _ => Ret {| summary := title; sentiment := Neutral |}).

End Service.

(** *** What the keyword patterns find *)

(** [word] stands in [content] as a whole word, in either case of its
    letters: a stretch of [content] lower-cases to [word], and the code
    unit before it and the one after it, where there is one, are not
    word characters. *)
Definition occursAsWord (word content : jsstring) : Prop :=
  exists before found after : jsstring,
    content = before ++ found ++ after
    /\ asciiLower found = asciiLower word
    /\ isWordOpt (last before) = false
    /\ isWordOpt (head after) = false.

Definition mentions (words : list string) (content : jsstring) : Prop :=
  exists word : string, In word words /\ occursAsWord (js word) content.

(** The code unit before the position reached after reading [read]. *)
Definition prevAfter (prev : option N) (read : jsstring) : option N :=
  match last read with Some c => Some c | None => prev end.

Definition lowerLetters (w : jsstring) : bool := forallb isLowerAscii w.

(** *** Batch translation *)

(** The promises of a batch, in input order: what is left to run of
    each. *)
Definition Pool (A : Type) : Type := list (Prog A).

(** The reply to the pending request of task [i] arrives. *)
Definition stepTask {A : Type} (o : Oracle) (st : Pool A * Log) (i : nat)
    : Pool A * Log :=
  match st.1 !! i with
  | Some (Call p text k) =>
      (<[i := k (o st.2 p text)]> st.1, st.2 ++ [(p, text)])
  | _ => st
  end.

(** Replies arrive in the order [schedule] gives; whatever is still
    pending afterwards is completed task by task. *)
Definition runSchedule {A : Type} (o : Oracle) (schedule : list nat)
    (st : Pool A * Log) : Pool A * Log :=
  fold_left (stepTask o) schedule st.

Fixpoint settleAll {A : Type} (o : Oracle) (log : Log) (pool : Pool A)
    : list (exn + A) * Log :=
  match pool with
  | [] => ([], log)
  | c :: rest =>
      let '(r, log1) := run o log c in
      let '(rs, log2) := settleAll o log1 rest in
      (r :: rs, log2)
  end.

(** The value of [Promise.all]: the results in input order, or a
    rejection when a promise rejects.  (translateBatch does not look at
    the reason of the rejection; the one of lowest index is kept.) *)
Fixpoint allFulfilled {A : Type} (rs : list (exn + A)) : exn + list A :=
  match rs with
  | [] => inr []
  | inl e :: _ => inl e
  | inr a :: rest =>
      match allFulfilled rest with
      | inl e => inl e
      | inr l => inr (a :: l)
      end
  end.

Definition promiseAll {A : Type} (o : Oracle) (schedule : list nat)
    (tasks : Pool A) (log : Log) : (exn + list A) * Log :=
  let '(pool, log1) := runSchedule o schedule (tasks, log) in
  let '(rs, log2) := settleAll o log1 pool in
  (allFulfilled rs, log2).

(** What is left of a task can only return what the task can. *)
Definition residual {A : Type} (task rest : Prog A) : Prop :=
  forall a, returns rest a -> returns task a.

(** Providers whose answer to a request does not depend on the
    requests made before it. *)
Definition stateless (o : Oracle) : Prop :=
  forall (log log' : Log) p text, o log p text = o log' p text.

(** The result of a program run on its own. *)
Definition outcome {A : Type} (o : Oracle) (c : Prog A) : exn + A :=
  (run o [] c).1.

(** translateBatch over the function mapped on the texts. *)
Definition translateBatchWith (translate : jsstring -> Prog jsstring)
    (o : Oracle) (schedule : list nat) (texts : list jsstring) (log : Log)
    : list jsstring * Log :=
  match promiseAll o schedule (List.map translate texts) log with
  | (inr translations, log1) => (translations, log1)
  | (inl _, log1) => (texts, log1)
  end.

Definition translateBatch (cheerioText : jsstring -> option jsstring)
    (toLowerCase : jsstring -> jsstring) (depth : nat)
    : Oracle -> list nat -> list jsstring -> Log -> list jsstring * Log :=
  translateBatchWith (translateToTurkish cheerioText toLowerCase depth).

End Translate.
Export Translate.

(* ------------------------------------------------------------------ *)
(** ** The HTTP endpoint, src/app/api/translate/route.ts *)

Module Route.

(** Values that [request.json()] can yield, and [undefined]. *)
#[warnings="-register-all"]
Inductive jsvalue : Type :=
| VUndefined
| VNull
| VBool (b : bool)
| VNumber (q : Q)
| VString (s : jsstring)
| VArray (items : list jsvalue)
| VObject (fields : list (jsstring * jsvalue)).

(** The body of a request: absent, not JSON, or a JSON value. *)
Inductive payload : Type := NoBody | Malformed | Json (v : jsvalue).

(** A Fetch API request.  Its body is a stream: reading it sets
    [bodyUsed], and a used body cannot be read again. *)
Record Request : Type := { body : payload; bodyUsed : bool }.

Inductive thrown : Type := SyntaxError | TypeError | TranslateFailed.

Record Response : Type :=
  { status : nat; error : option jsstring; translation : option jsstring }.

(** [await request.json()] *)
Definition request_json (request : Request) : (thrown + jsvalue) * Request :=
  match body request with
  | NoBody => (inl SyntaxError, request)
  | Malformed =>
      if bodyUsed request then (inl TypeError, request)
      else (inl SyntaxError, {| body := body request; bodyUsed := true |})
  | Json v =>
      if bodyUsed request then (inl TypeError, request)
      else (inr v, {| body := body request; bodyUsed := true |})
  end.

Fixpoint lookupField (key : jsstring) (fields : list (jsstring * jsvalue))
    : jsvalue :=
  match fields with
  | [] => VUndefined
  | (k, v) :: rest => if str_eqb k key then v else lookupField key rest
  end.

(** [v.text], also as the pattern [{ text }]: an error on [null] and
    [undefined], [undefined] where the property is missing. *)
Definition textOf (v : jsvalue) : thrown + jsvalue :=
  match v with
  | VUndefined | VNull => inl TypeError
  | VObject fields => inr (lookupField (js "text") fields)
  | _ => inr VUndefined
  end.

Definition truthyValue (v : jsvalue) : bool :=
  match v with
  | VUndefined | VNull => false
  | VBool b => b
  | VNumber q => negb (Qeq_bool q 0)
  | VString s => truthy s
  | VArray _ | VObject _ => true
  end.

Definition isString (v : jsvalue) : bool :=
  match v with VString _ => true | _ => false end.

(** [!text || typeof text !== 'string' || text.trim().length === 0] *)
Definition invalidText (text : jsvalue) : bool :=
  negb (truthyValue text) || negb (isString text)
  || match text with VString s => strlen (trim s) =? 0 | _ => true end.

Definition badRequest : Response :=
  {| status := 400; error := Some (js "Invalid text provided"); translation := None |}.

Definition okResponse (t : jsstring) : Response :=
  {| status := 200; error := None; translation := Some t |}.

Definition failedResponse (t : jsstring) : Response :=
  {| status := 500; error := Some (js "Translation failed"); translation := Some t |}.

Section Endpoint.

Variable cheerioText : jsstring -> option jsstring.

(** translateWithGoogle of the route: the joined fragments of the
    reply, or [None] for [null] (no reply, a reply that is not ok or
    not an array, or an exception). *)
Variable translateWithGoogle : jsstring -> option jsstring.

(** stripHtml of the route *)
Definition stripHtml (html : jsstring) : jsstring :=
  match cheerioText html with
  | Some text => cleanWhiteSpace text
  | None => trim (replaceAll reSpaces (js " ") (replaceAll reTag (js " ") html))
  end.

(** The [try] block of POST. *)
Definition handle (request : Request) : (thrown + Response) * Request :=
  match request_json request with
  | (inl e, request1) => (inl e, request1)
  | (inr v, request1) =>
      match textOf v with
      | inl e => (inl e, request1)
      | inr text =>
          if invalidText text then (inr badRequest, request1) else
          match text with
          | VString text =>
              let cleanText := stripHtml text in
              if strlen (trim cleanText) =? 0
              then (inr (okResponse text), request1)
              else
                match translateWithGoogle cleanText with
                | Some translation =>
                    if truthy translation
                    then (inr (okResponse (stripHtml translation)), request1)
                    else (inl TranslateFailed, request1)
                | None => (inl TranslateFailed, request1)
                end
          | _ => (inr badRequest, request1)  (* excluded by invalidText *)
          end
      end
  end.

(** POST: the [try] block, and in the [catch] block a second
    [await request.json()] on the same request. *)
Definition POST (request : Request) : (thrown + Response) * Request :=
  match handle request with
  | (inr response, request1) => (inr response, request1)
  | (inl _, request1) =>
      match request_json request1 with
      | (inl e, request2) => (inl e, request2)
      | (inr v, request2) =>
          match textOf v with
          | inr (VString text) => (inr (failedResponse (stripHtml text)), request2)
          | inr _ => (inl TypeError, request2)  (* stripHtml of a non-string *)
          | inl e => (inl e, request2)
          end
      end
  end.

End Endpoint.

End Route.

(* ------------------------------------------------------------------ *)
(** ** Retry with exponential backoff *)

Module Retry.

Section RetryWithBackoff.
Context {E T number : Type}.

(** The numbers of the loop are JavaScript numbers.  Their arithmetic is
    left open: [number] stands for them, and each operation the loop
    does on them is a parameter. *)
Variable zero : number.                          (* [0], the first [i] *)
Variable incr : number -> number.                (* [i++] *)
Variable lt : number -> number -> bool.          (* [<] *)
Variable minusOne : number -> number.            (* [maxRetries - 1] *)
Variable timesPow2 : number -> number -> number. (* [initialDelay * Math.pow(2, i)] *)

(** [fn] is called again and again: [fn n] is what its call number [n]
    (from 0) does, throw an error or return a value. *)
Variable fn : nat -> E + T.

(** The [for] loop of retryWithBackoff at the test [i < maxRetries],
    after [calls] calls of [fn].  [lastError] is [None] while it is
    [undefined]; [slept] lists the delays handed to [setTimeout] so far.
    The outcome is the value returned, or what [throw lastError] throws;
    there is none when [fuel] iterations do not end the loop. *)
Fixpoint retryLoop (fuel : nat) (maxRetries initialDelay : number)
    (i : number) (calls : nat) (lastError : option E) (slept : list number)
    : option ((option E + T) * list number) :=
  match fuel with
  | O => None
  | S fuel' =>
      if lt i maxRetries then
        match fn calls with
        | inr value => Some (inr value, slept)
        | inl error =>
            retryLoop fuel' maxRetries initialDelay (incr i) (S calls) (Some error)
              (if lt i (minusOne maxRetries)
               then slept ++ [timesPow2 initialDelay i]
               else slept)
        end
      else Some (inl lastError, slept)
  end.

Definition retryWithBackoff (fuel : nat) (maxRetries initialDelay : number)
    : option ((option E + T) * list number) :=
  retryLoop fuel maxRetries initialDelay zero 0 None [].

(** The value of [i] in iteration number [n] (from 0). *)
Definition index (n : nat) : number := Nat.iter n incr zero.

(** The delays that follow the failed calls number [from] to
    [from + count - 1]: one after each whose index passes the test
    [i < maxRetries - 1]. *)
Definition waits (maxRetries initialDelay : number) (from count : nat)
    : list number :=
  List.map (fun n => timesPow2 initialDelay (index n))
    (List.filter (fun n => lt (index n) (minusOne maxRetries)) (seq from count)).

End RetryWithBackoff.

End Retry.
Export Retry.

(* ------------------------------------------------------------------ *)
(** ** Vocabulary for the chunker *)

Module ChunkerSpec.

(** A text whose first code unit is not a terminator. *)
Definition startsSentence (s : jsstring) : Prop :=
  exists c r, s = c :: r /\ isTerminator c = false.

End ChunkerSpec.
Export ChunkerSpec.

(* ------------------------------------------------------------------ *)
(** ** Patterns that cannot match *)

Module DeadPatterns.

(** A pattern every match of which takes at least one code unit. *)
Fixpoint consuming (r : regex) : bool :=
  match r with
  | Class _ => true
  | Seq a b => consuming a || consuming b
  | Alt a b => consuming a && consuming b
  | Eps | Star _ | Bol | WordBoundary => false
  end.

(** [dead r afterUnit]: the pattern has [^] where a code unit has been
    taken before it, so it matches nowhere; [afterUnit] tells that a code
    unit comes before the pattern itself. *)
Fixpoint dead (r : regex) (afterUnit : bool) : bool :=
  match r with
  | Bol => afterUnit
  | Seq a b => dead a afterUnit || dead b (afterUnit || consuming a)
  | Alt a b => dead a afterUnit && dead b afterUnit
  | Eps | Class _ | Star _ | WordBoundary => false
  end.

End DeadPatterns.
Export DeadPatterns.

(* ------------------------------------------------------------------ *)
(** ** What a program asks of the providers *)

Module Requests.

(** Every request the program can make, whatever the replies, is one
    that [P] allows. *)
Inductive allCalls {A : Type} (P : provider -> jsstring -> Prop) : Prog A -> Prop :=
| allCalls_ret a : allCalls P (Ret a)
| allCalls_throw e : allCalls P (Throw e)
| allCalls_call p text k :
    P p text -> (forall r, allCalls P (k r)) -> allCalls P (Call p text k).

(** A text fit to be sent: the sanitized form of some text, not blank
    and of at most [maxChunkSize] code units. *)
Definition sendable (cheerioText : jsstring -> option jsstring)
    (text : jsstring) : Prop :=
  strlen text <= maxChunkSize
  /\ blank text = false
  /\ exists source, text = Sanitizer.stripHtml cheerioText source.

End Requests.
Export Requests.

(* ------------------------------------------------------------------ *)
(** ** Decoding the reply of Google Translate *)

Module Providers.

Import Route.

(** What [fetch] resolves to: the [ok] flag, the status, and the value
    of [response.json()], [None] when the body is not JSON. *)
Record FetchResponse : Type :=
  { ok : bool; httpStatus : nat; json : option jsvalue }.

Section Decode.

(** [String(v)] for a value that is not a string, as [join] applies it:
    a function of the number formatting of the platform. *)
Variable stringOf : jsvalue -> jsstring.

Definition asString (v : jsvalue) : jsstring :=
  match v with
  | VString s => s
  | _ => stringOf v
  end.

(** [if (Array.isArray(item) && item[0]) translations.push(item[0])] *)
Definition pushed (item : jsvalue) : list jsvalue :=
  match item with
  | VArray (first :: _) => if truthyValue first then [first] else []
  | _ => []
  end.

(** The loop over [data[0]]: [None] when [data[0]] cannot be iterated.
    A string can, and none of its items is an array. *)
Definition collect (first : jsvalue) : option (list jsvalue) :=
  match first with
  | VArray items => Some (flat_map pushed items)
  | VString _ => Some []
  | _ => None
  end.

(** From the response to [translations.join('')]; [None] where the
    service function throws and the route function returns [null]:
    no response, a response that is not ok, a body that is not JSON or
    not a non-empty array, a first element that cannot be iterated. *)
Definition decodeGoogle (fetched : option FetchResponse) : option jsstring :=
  match fetched with
  | None => None
  | Some response =>
      if ok response then
        match json response with
        | Some (VArray (first :: _)) =>
            match collect first with
            | Some translations => Some (concat (List.map asString translations))
            | None => None
            end
        | _ => None
        end
      else None
  end.

(** translateWithGoogle of the service, from what [fetch] gives, and
    translateWithGoogle of the route. *)
Definition serviceTranslateWithGoogle (fetched : option FetchResponse)
    : Prog jsstring :=
  checked (decodeGoogle fetched).

Definition routeTranslateWithGoogle (fetched : option FetchResponse)
    : option jsstring :=
  decodeGoogle fetched.

End Decode.

(** A reply in the format the service expects,
    [[[fragment, original, ...], ...], ...]. *)
Definition googleReply (fragments : list (jsstring * list jsvalue))
    (more : list jsvalue) : jsvalue :=
  VArray (VArray (List.map (fun f => VArray (VString f.1 :: f.2)) fragments) :: more).

End Providers.
Export Providers.

(* ------------------------------------------------------------------ *)
(** ** More sample inputs *)

Module MoreSamples.

(** A function that throws on its first two calls and returns 7 on the
    third; one that always throws the number of the call. *)
Definition flaky (i : nat) : nat + nat := if i <? 2 then inl i else inr 7.
Definition failing (i : nat) : nat + nat := inl i.

(** [initialDelay * Math.pow(2, i)] on integers small enough for the
    arithmetic of numbers to be exact on them. *)
Definition exactTimesPow2 (initialDelay i : Z) : Z := (initialDelay * 2 ^ i)%Z.

(** Google answers every request with "Merhaba dunya nasilsin". *)
Definition merhaba : jsstring := js "Merhaba dunya nasilsin".

End MoreSamples.
Export MoreSamples.

(* ------------------------------------------------------------------ *)
(** ** Sample inputs *)

Module Samples.

(** One sentence of 501 letters and a full stop. *)
Definition oversizedSentence : jsstring := repeat 97%N 501 ++ js ".".

(** Sixty sentences of ten code units, then four code units without a
    terminator. *)
Definition sixtySentences : jsstring := concat (repeat (js "aaaaaaaaa.") 60).
Definition unterminatedTail : jsstring := sixtySentences ++ js "tail".

(** "Read more:" written with a tab, before eleven more code units. *)
Definition tabbedReadMore : jsstring :=
  js "Read" ++ [9%N] ++ js "more: hello world".

(** Providers that answer every request the same way. *)
Definition constOracle (google libre : option jsstring) : Oracle :=
  fun _ p _ => match p with Google => google | LibreTranslate => libre end.

(** A request whose body is [{"text": "Hello world"}]. *)
Definition helloRequest : Route.Request :=
  {| Route.body :=
       Route.Json (Route.VObject [(js "text", Route.VString (js "Hello world"))]);
     Route.bodyUsed := false |}.

(** A translate function that always throws. *)
Definition failingTranslate (text : jsstring) : Prog jsstring :=
  Throw ProviderError.

End Samples.
Export Samples.

(* ------------------------------------------------------------------ *)
(** ** The matcher *)

Section MatcherFacts.

(** Where the pattern occurs nowhere, replacing changes nothing. *)
Lemma replace_from_absent (r : regex) (rep : jsstring) (s : jsstring)
    (prev : option N) :
  search_from r prev s = false -> replace_from r rep prev s 0 = s.
Proof.
  revert prev; induction s as [| c s IH]; intros prev; simpl.
  - destruct (matchAt r prev []); [discriminate | reflexivity].
  - destruct (matchAt r prev (c :: s)); [discriminate |].
    intros H. rewrite IH by exact H. reflexivity.
Qed.

Lemma replaceAll_absent (r : regex) (rep s : jsstring) :
  test r s = false -> replaceAll r rep s = s.
Proof. apply replace_from_absent. Qed.

Lemma star_loop_extend {R R' : Type}
    (step : option N -> jsstring -> @cont R -> option R)
    (step' : option N -> jsstring -> @cont R' -> option R')
    (t : jsstring) :
  (forall prev s (k : @cont R) (k' : @cont R'),
     (forall p' s', k p' s' <> None -> k' p' (s' ++ t) <> None) ->
     step prev s k <> None -> step' prev (s ++ t) k' <> None) ->
  forall (fuel fuel' : nat) prev s (k : @cont R) (k' : @cont R'),
    length s <= fuel -> length (s ++ t) <= fuel' -> fuel <= fuel' ->
    (forall p' s', k p' s' <> None -> k' p' (s' ++ t) <> None) ->
    star_loop step fuel prev s k <> None ->
    star_loop step' fuel' prev (s ++ t) k' <> None.
Proof.
  intros Hstep fuel.
  induction fuel as [| fuel IH]; intros fuel' prev s k k' Hs Hst Hle Hk; simpl.
  - intros H. destruct fuel' as [| fuel']; simpl; [auto |].
    destruct (step' prev (s ++ t) _); [discriminate | auto].
  - destruct fuel' as [| fuel']; [lia |]. simpl.
    destruct (step prev s _) eqn:Hrun.
    + intros _.
      assert (Hext : step' prev (s ++ t)
                (fun prev' s' =>
                   if length s' <? length (s ++ t)
                   then star_loop step' fuel' prev' s' k' else None) <> None).
      { eapply Hstep; [| rewrite Hrun; discriminate].
        intros p' s'. simpl.
        destruct (length s' <? length s) eqn:Hlt; [| congruence].
        apply Nat.ltb_lt in Hlt. intros Hloop.
        replace (length (s' ++ t) <? length (s ++ t)) with true
          by (symmetry; apply Nat.ltb_lt; rewrite !length_app; lia).
        apply (IH fuel' p' s' k k'); auto; try lia.
        rewrite length_app in *. lia. }
      destruct (step' prev (s ++ t) _); [discriminate | contradiction].
    + intros H. destruct (step' prev (s ++ t) _); [discriminate | auto].
Qed.

(** A match found in a text is found at the same place in every
    extension of the text. *)
Lemma m_extend {R R' : Type} (r : regex) (t : jsstring) :
  boundaryFree r = true ->
  forall prev s (k : @cont R) (k' : @cont R'),
    (forall p' s', k p' s' <> None -> k' p' (s' ++ t) <> None) ->
    m r prev s k <> None -> m r prev (s ++ t) k' <> None.
Proof.
  induction r as [| p | a IHa b IHb | a IHa b IHb | a IHa | |];
    simpl; intros Hbf prev s k k' Hk.
  - apply Hk.
  - destruct s as [| c s]; simpl; [congruence |].
    destruct (p c); [apply Hk | congruence].
  - apply andb_true_iff in Hbf as [Ha Hb].
    apply IHa; [exact Ha |]. intros p' s'. apply IHb; assumption.
  - apply andb_true_iff in Hbf as [Ha Hb].
    destruct (m a prev s k) eqn:Hrun.
    + intros _.
      assert (m a prev (s ++ t) k' <> None)
        by (eapply IHa; eauto; rewrite Hrun; discriminate).
      destruct (m a prev (s ++ t) k'); [discriminate | contradiction].
    + intros H. destruct (m a prev (s ++ t) k'); [discriminate |].
      eapply IHb; eauto.
  - apply star_loop_extend; auto; [intros; eapply IHa; eauto | rewrite length_app; lia].
  - destruct prev; [congruence | apply Hk].
  - discriminate.
Qed.

Lemma matchAt_extend (r : regex) (prev : option N) (s t : jsstring) :
  boundaryFree r = true ->
  matchAt r prev s <> None -> matchAt r prev (s ++ t) <> None.
Proof.
  intros Hbf. unfold matchAt. apply m_extend; [exact Hbf |]. discriminate.
Qed.

Lemma search_from_extend (r : regex) (s t : jsstring) (prev : option N) :
  boundaryFree r = true ->
  search_from r prev s = true -> search_from r prev (s ++ t) = true.
Proof.
  intros Hbf. revert prev; induction s as [| c s IH]; intros prev; simpl.
  - destruct (matchAt r prev []) eqn:Hm; [| discriminate]. intros _.
    pose proof (matchAt_extend r prev [] t Hbf) as H. rewrite Hm in H.
    simpl in H. destruct t as [| d t]; simpl.
    + rewrite Hm; reflexivity.
    + destruct (matchAt r prev (d :: t)); [reflexivity |].
      exfalso; apply H; [discriminate | reflexivity].
  - destruct (matchAt r prev (c :: s)) eqn:Hm.
    + intros _.
      pose proof (matchAt_extend r prev (c :: s) t Hbf) as H. rewrite Hm in H.
      simpl in H. destruct (matchAt r prev (c :: s ++ t)); [reflexivity |].
      exfalso; apply H; [discriminate | reflexivity].
    + intros H. destruct (matchAt r prev (c :: s ++ t)); [reflexivity |].
      apply IH, H.
Qed.

(** The greedy loop over one class runs to the end of the run. *)
Lemma star_loop_class {R : Type} (p : N -> bool) (k : @cont R) (v : R)
    (fuel : nat) (prev : option N) (s : jsstring) :
  length s <= fuel ->
  (forall p', k p' (dropWhile p s) = Some v) ->
  star_loop (m (Class p)) fuel prev s k = Some v.
Proof.
  revert prev s; induction fuel as [| fuel IH]; intros prev s Hlen Hk.
  - destruct s; [apply Hk | simpl in Hlen; lia].
  - destruct s as [| c s]; simpl.
    + apply Hk.
    + simpl in Hk. destruct (p c) eqn:Hc.
      * replace (length s <? S (length s)) with true
          by (symmetry; apply Nat.ltb_lt; lia).
        rewrite IH; [reflexivity | simpl in Hlen; lia | exact Hk].
      * apply Hk.
Qed.

Lemma takeWhile_dropWhile (p : N -> bool) (s : jsstring) :
  takeWhile p s ++ dropWhile p s = s.
Proof.
  induction s as [| c s IH]; simpl; [reflexivity |].
  destruct (p c); simpl; [rewrite IH |]; reflexivity.
Qed.

Lemma matchAt_plus_class (p : N -> bool) (prev : option N) (s : jsstring) :
  matchAt (Plus (Class p)) prev s =
  match s with
  | c :: s' => if p c then Some (S (length (takeWhile p s'))) else None
  | [] => None
  end.
Proof.
  unfold matchAt; simpl. destruct s as [| c s]; [reflexivity |].
  destruct (p c); [| reflexivity].
  apply star_loop_class; [lia |]. intros _. f_equal.
  rewrite <- (takeWhile_dropWhile p s) at 1. simpl. rewrite length_app. lia.
Qed.

End MatcherFacts.

(* ------------------------------------------------------------------ *)
(** ** White space, trimming and the pipe *)

Section WhiteSpaceFacts.

Lemma replace_spaces_squeeze (s : jsstring) (prev : option N) :
  replace_from reSpaces (js " ") prev s 0 = squeeze false s
  /\ replace_from reSpaces (js " ") prev s (length (takeWhile isWhiteSpace s))
     = squeeze true s.
Proof.
  unfold reSpaces. change (js " ") with [32%N].
  revert prev; induction s as [| c s IH]; intros prev.
  - cbn [replace_from takeWhile length squeeze].
    rewrite matchAt_plus_class. auto.
  - destruct (IH (Some c)) as [IH0 IH1].
    cbn [replace_from takeWhile squeeze].
    destruct (isWhiteSpace c) eqn:Hc; cbn [length];
      rewrite ?matchAt_plus_class, ?Hc, ?IH0, ?IH1; auto.
Qed.

(** [.replace(/\s+/g, ' ')] writes one space for every run of white
    space. *)
Lemma replaceAll_spaces (s : jsstring) :
  replaceAll reSpaces (js " ") s = squeeze false s.
Proof. apply replace_spaces_squeeze. Qed.

Lemma spaced_squeeze (s : jsstring) :
  spacedFrom false (squeeze false s) = true
  /\ spacedFrom true (squeeze true s) = true.
Proof.
  induction s as [| c s [IH0 IH1]]; simpl; [auto |].
  destruct (isWhiteSpace c) eqn:Hc; simpl; rewrite ?Hc; auto.
Qed.

Lemma squeeze_spaced (s : jsstring) (b : bool) :
  spacedFrom b s = true -> squeeze b s = s.
Proof.
  revert b; induction s as [| c s IH]; intros b; simpl; [reflexivity |].
  destruct (isWhiteSpace c).
  - rewrite !andb_true_iff, N.eqb_eq, negb_true_iff.
    intros [[-> ->] H]. rewrite IH by exact H. reflexivity.
  - intros H. rewrite IH by exact H. reflexivity.
Qed.

Lemma spacedFrom_weaken (s : jsstring) (b : bool) :
  spacedFrom b s = true -> spacedFrom false s = true.
Proof.
  destruct b; [| auto]. destruct s as [| c s]; simpl; [auto |].
  destruct (isWhiteSpace c); [| auto].
  rewrite andb_false_r. discriminate.
Qed.

Lemma spaced_suffix (a s : jsstring) (b : bool) :
  spacedFrom b (a ++ s) = true -> spacedFrom false s = true.
Proof.
  revert b; induction a as [| c a IH]; intros b; simpl.
  - apply spacedFrom_weaken.
  - destruct (isWhiteSpace c); [| apply IH].
    rewrite !andb_true_iff. intros [_ H]. eapply IH, H.
Qed.

Lemma spaced_prefix (a s : jsstring) (b : bool) :
  spacedFrom b (a ++ s) = true -> spacedFrom b a = true.
Proof.
  revert b; induction a as [| c a IH]; intros b; simpl; [reflexivity |].
  destruct (isWhiteSpace c); [| apply IH].
  rewrite !andb_true_iff. intros [H1 H2]. split; [exact H1 | eapply IH, H2].
Qed.

Lemma spaced_no_newline (s : jsstring) (b : bool) :
  spacedFrom b s = true -> ~ In 10%N s.
Proof.
  revert b; induction s as [| c s IH]; intros b; simpl; [tauto |].
  destruct (isWhiteSpace c) eqn:Hc.
  - rewrite !andb_true_iff, N.eqb_eq. intros [[-> _] H] [Habs | Hin].
    + discriminate.
    + exact (IH _ H Hin).
  - intros H [-> | Hin]; [discriminate | exact (IH _ H Hin)].
Qed.

Lemma m_first_class_fails {R : Type} (p : N -> bool) (r : regex)
    (prev : option N) (c : N) (s : jsstring) (k : @cont R) :
  p c = false -> m (Seq (Class p) r) prev (c :: s) k = None.
Proof. simpl. intros ->. reflexivity. Qed.

Lemma search_blank_lines_absent (s : jsstring) (prev : option N) :
  ~ In 10%N s -> search_from reBlankLines prev s = false.
Proof.
  revert prev; induction s as [| c s IH]; intros prev Hin.
  - reflexivity.
  - cbn [search_from].
    assert (Hm : matchAt reBlankLines prev (c :: s) = None).
    { unfold matchAt.
      change reBlankLines
        with (Seq (Class (N.eqb 10)) (Seq (Star (Class isWhiteSpace)) (Chr 10))).
      apply m_first_class_fails, N.eqb_neq.
      intros Hc. apply Hin; left; congruence. }
    rewrite Hm. apply IH. intros H; apply Hin; right; exact H.
Qed.

(** [.replace(/\s+/g, ' ').replace(/\n\s*\n/g, '\n').trim()]: the
    second replacement finds nothing to replace. *)
Lemma cleanWhiteSpace_squeeze (s : jsstring) :
  cleanWhiteSpace s = trim (squeeze false s).
Proof.
  unfold cleanWhiteSpace. rewrite replaceAll_spaces. f_equal.
  apply replaceAll_absent, search_blank_lines_absent.
  eapply spaced_no_newline, spaced_squeeze.
Qed.

Lemma dropWhile_last (p : N -> bool) (l : jsstring) (c : N) :
  p c = false -> dropWhile p (l ++ [c]) = dropWhile p l ++ [c].
Proof.
  intros Hc; induction l as [| d l IH]; simpl.
  - rewrite Hc; reflexivity.
  - destruct (p d); [exact IH | reflexivity].
Qed.

Lemma dropWhile_head (p : N -> bool) (s r : jsstring) (c : N) :
  dropWhile p s = c :: r -> p c = false.
Proof.
  induction s as [| d s IH]; simpl; [discriminate |].
  destruct (p d) eqn:Hd; [exact IH | intros [= -> _]; exact Hd].
Qed.

Lemma dropWhile_idempotent (p : N -> bool) (s : jsstring) :
  dropWhile p (dropWhile p s) = dropWhile p s.
Proof.
  induction s as [| d s IH]; simpl; [reflexivity |].
  destruct (p d) eqn:Hd; [exact IH | simpl; rewrite Hd; reflexivity].
Qed.

Lemma trimEnd_cons (c : N) (s : jsstring) :
  isWhiteSpace c = false -> trimEnd (c :: s) = c :: trimEnd s.
Proof.
  intros Hc. unfold trimEnd. simpl.
  rewrite dropWhile_last by exact Hc.
  rewrite rev_app_distr. reflexivity.
Qed.

Lemma trimEnd_decompose (s : jsstring) :
  s = trimEnd s ++ rev (takeWhile isWhiteSpace (rev s)).
Proof.
  unfold trimEnd. rewrite <- rev_app_distr, takeWhile_dropWhile, rev_involutive.
  reflexivity.
Qed.

Lemma trimStart_decompose (s : jsstring) :
  s = takeWhile isWhiteSpace s ++ trimStart s.
Proof. symmetry; apply takeWhile_dropWhile. Qed.

Lemma trimEnd_idempotent (s : jsstring) : trimEnd (trimEnd s) = trimEnd s.
Proof.
  unfold trimEnd. rewrite rev_involutive, dropWhile_idempotent. reflexivity.
Qed.

Lemma trim_idempotent (s : jsstring) : trim (trim s) = trim s.
Proof.
  unfold trim.
  assert (H : trimStart (trimEnd (trimStart s)) = trimEnd (trimStart s)).
  { unfold trimStart at 2 3.
    destruct (dropWhile isWhiteSpace s) as [| c u] eqn:Hu; [reflexivity |].
    apply dropWhile_head in Hu.
    rewrite trimEnd_cons by exact Hu.
    unfold trimStart; simpl. rewrite Hu. reflexivity. }
  rewrite H. apply trimEnd_idempotent.
Qed.

Lemma spaced_trim (s : jsstring) :
  spacedFrom false s = true -> spacedFrom false (trim s) = true.
Proof.
  intros H. unfold trim.
  rewrite (trimStart_decompose s) in H. apply spaced_suffix in H.
  rewrite (trimEnd_decompose (trimStart s)) in H.
  eapply spaced_prefix, H.
Qed.

Lemma In_trim (c : N) (s : jsstring) : In c (trim s) -> In c s.
Proof.
  intros H. unfold trim in H.
  rewrite (trimStart_decompose s). apply in_or_app; right.
  rewrite (trimEnd_decompose (trimStart s)). apply in_or_app; left. exact H.
Qed.

Lemma In_squeeze (c : N) (s : jsstring) (b : bool) :
  In c (squeeze b s) -> In c s \/ c = 32%N.
Proof.
  revert b; induction s as [| d s IH]; intros b; simpl; [tauto |].
  destruct (isWhiteSpace d); [destruct b |]; simpl; intros H.
  - destruct (IH _ H); auto.
  - destruct H as [<- | H]; [auto |]. destruct (IH _ H); auto.
  - destruct H as [<- | H]; [auto |]. destruct (IH _ H); auto.
Qed.

(** *** The pipe *)

Lemma beforePipe_no_pipe (s : jsstring) : ~ In pipe (beforePipe s).
Proof.
  unfold beforePipe. induction s as [| c s IH]; simpl; [tauto |].
  destruct (c =? pipe)%N eqn:Hc; simpl; [tauto |].
  apply N.eqb_neq in Hc. intros [H | H]; [congruence | exact (IH H)].
Qed.

Lemma beforePipe_all (s : jsstring) : ~ In pipe s -> beforePipe s = s.
Proof.
  unfold beforePipe. induction s as [| c s IH]; simpl; [reflexivity |].
  intros H. destruct (c =? pipe)%N eqn:Hc; simpl.
  - apply N.eqb_eq in Hc. exfalso; apply H; left; exact Hc.
  - rewrite IH; [reflexivity | intros Hin; apply H; right; exact Hin].
Qed.

Lemma beforePipe_nil (s : jsstring) :
  beforePipe s = [] -> s = [] \/ exists s', s = pipe :: s'.
Proof.
  unfold beforePipe. destruct s as [| c s]; simpl; [auto |].
  destruct (c =? pipe)%N eqn:Hc; simpl; [| discriminate].
  apply N.eqb_eq in Hc. subst c. eauto.
Qed.

Lemma beforePipe_prefix (s : jsstring) : exists rest, s = beforePipe s ++ rest.
Proof.
  exists (dropWhile (fun c => negb (c =? pipe)%N) s).
  symmetry; apply takeWhile_dropWhile.
Qed.

Lemma orElse_beforePipe_fixed (s : jsstring) :
  pipeFixed s -> orElse (beforePipe s) s = s.
Proof.
  intros [H | (s' & ->)].
  - rewrite beforePipe_all by exact H. unfold orElse. destruct s; reflexivity.
  - reflexivity.
Qed.

Lemma pipeFixed_cleanWhiteSpace (s : jsstring) :
  pipeFixed (orElse (beforePipe s) s) ->
  pipeFixed (trim (squeeze false (orElse (beforePipe s) s))).
Proof.
  intros [H | (s' & Hs)].
  - left. intros Hin. apply In_trim, In_squeeze in Hin.
    destruct Hin as [Hin | Hin]; [exact (H Hin) | discriminate].
  - right. rewrite Hs. simpl. unfold trim, trimStart. simpl.
    rewrite trimEnd_cons by reflexivity. eauto.
Qed.

Lemma pipeFixed_orElse (s : jsstring) : pipeFixed (orElse (beforePipe s) s).
Proof.
  unfold orElse. destruct (beforePipe s) as [| c b] eqn:Hb; simpl.
  - destruct (beforePipe_nil s Hb) as [-> | (s' & ->)];
      [left; simpl; tauto | right; eauto].
  - left. rewrite <- Hb. apply beforePipe_no_pipe.
Qed.

End WhiteSpaceFacts.

(* ------------------------------------------------------------------ *)
(** ** The sanitizer *)

Section SanitizerFacts.

Variable cheerioText : jsstring -> option jsstring.

Abbreviation stripHtml := (Sanitizer.stripHtml cheerioText).

Lemma noisePatterns_boundaryFree : forallb boundaryFree noisePatterns = true.
Proof. reflexivity. Qed.

(** Noise that occurs before the first pipe occurs in the whole text. *)
Lemma noiseFree_prefix (a b : jsstring) :
  noiseFree (a ++ b) = true -> noiseFree a = true.
Proof.
  unfold noiseFree. rewrite !forallb_forall. intros H r Hr.
  specialize (H r Hr). destruct (test r a) eqn:Ha; [| reflexivity].
  pose proof noisePatterns_boundaryFree as Hbf.
  rewrite forallb_forall in Hbf.
  apply (search_from_extend r a b None (Hbf r Hr)) in Ha.
  unfold test in H. rewrite Ha in H. discriminate.
Qed.

Lemma removeNoise_noiseFree (s : jsstring) :
  noiseFree s = true -> removeNoise s = s.
Proof.
  unfold removeNoise, noiseFree. generalize noisePatterns as patterns.
  induction patterns as [| r patterns IH]; simpl; [reflexivity |].
  rewrite andb_true_iff, negb_true_iff. intros [Hr H].
  rewrite replaceAll_absent by exact Hr. apply IH, H.
Qed.

Lemma noiseFree_orElse_beforePipe (x : jsstring) :
  noiseFree x = true -> noiseFree (orElse (beforePipe x) x) = true.
Proof.
  intros H. unfold orElse. destruct (truthy (beforePipe x)); [| exact H].
  destruct (beforePipe_prefix x) as (rest & Hx).
  rewrite Hx in H. eapply noiseFree_prefix, H.
Qed.

(** On text free of noise the sanitizer cuts at the pipe, squeezes the
    white space and trims. *)
Lemma cleanText_noiseFree (x : jsstring) :
  noiseFree x = true ->
  cleanText x =
  let y := trim (squeeze false (orElse (beforePipe x) x)) in
  if strlen y <? 10 then [] else y.
Proof.
  intros H. unfold cleanText.
  rewrite removeNoise_noiseFree by (apply noiseFree_orElse_beforePipe, H).
  rewrite cleanWhiteSpace_squeeze. reflexivity.
Qed.

Lemma cleanText_fixed (y : jsstring) :
  noiseFree y = true -> spacedFrom false y = true -> trim y = y ->
  pipeFixed y -> 10 <= strlen y -> cleanText y = y.
Proof.
  intros Hnoise Hspaced Htrim Hpipe Hlen.
  rewrite cleanText_noiseFree by exact Hnoise. cbv zeta.
  rewrite orElse_beforePipe_fixed by exact Hpipe.
  rewrite squeeze_spaced by exact Hspaced.
  rewrite Htrim.
  replace (strlen y <? 10) with false by (symmetry; apply Nat.ltb_ge; exact Hlen).
  reflexivity.
Qed.

Lemma cleanText_idempotent (x : jsstring) :
  noiseFree x = true -> noiseFree (cleanText x) = true ->
  cleanText (cleanText x) = cleanText x.
Proof.
  intros Hx. rewrite (cleanText_noiseFree x Hx). cbv zeta.
  set (y := trim (squeeze false (orElse (beforePipe x) x))).
  destruct (strlen y <? 10) eqn:Hlen; intros Hy.
  - reflexivity.
  - apply cleanText_fixed.
    + exact Hy.
    + apply spaced_trim, spaced_squeeze.
    + apply trim_idempotent.
    + apply pipeFixed_cleanWhiteSpace, pipeFixed_orElse.
    + apply Nat.ltb_ge, Hlen.
Qed.

(** C7, as amended.  For text free of markup and of noise patterns
    whose sanitized form is free of them as well, sanitizing a second
    time changes nothing. *)
Theorem sanitize_idempotent_on_clean_text (x : jsstring) :
  markupFree cheerioText x -> noiseFree x = true ->
  markupFree cheerioText (stripHtml x) -> noiseFree (stripHtml x) = true ->
  stripHtml (stripHtml x) = stripHtml x.
Proof.
  unfold markupFree. intros Hx Hnx.
  assert (Hs : stripHtml x = cleanText x)
    by (unfold Sanitizer.stripHtml; rewrite Hx; reflexivity).
  rewrite Hs. intros Hy Hny.
  unfold Sanitizer.stripHtml at 1. rewrite Hy.
  apply cleanText_idempotent; assumption.
Qed.

End SanitizerFacts.

(** C7, as stated, fails.  "Read<TAB>more: hello world" has no markup
    and matches no noise pattern; sanitizing it gives
    "Read more: hello world", and sanitizing that gives
    "hello world". *)
Lemma sanitize_not_idempotent :
  markupFree plainText tabbedReadMore
  /\ noiseFree tabbedReadMore = true
  /\ Sanitizer.stripHtml plainText tabbedReadMore = js "Read more: hello world"
  /\ Sanitizer.stripHtml plainText (Sanitizer.stripHtml plainText tabbedReadMore)
     = js "hello world"
  /\ Sanitizer.stripHtml plainText (Sanitizer.stripHtml plainText tabbedReadMore)
     <> Sanitizer.stripHtml plainText tabbedReadMore.
Proof.
  repeat split; try (vm_compute; reflexivity).
  vm_compute. discriminate.
Qed.

(* ------------------------------------------------------------------ *)
(** ** Sentences *)

Section SentenceFacts.

(** A greedy run over one class, followed by something that cannot
    start inside the run: the run is taken whole. *)
Lemma star_loop_class_whole {R : Type} (p : N -> bool) (K : @cont R)
    (fuel : nat) (prev : option N) (s : jsstring) :
  (forall p1 p2 x, K p1 x = K p2 x) ->
  (forall p' c x, p c = true -> K p' (c :: x) = None) ->
  length s <= fuel ->
  star_loop (m (Class p)) fuel prev s K = K prev (dropWhile p s).
Proof.
  intros Hprev Hin. revert prev s.
  induction fuel as [| fuel IH]; intros prev s Hlen.
  - destruct s; [reflexivity | simpl in Hlen; lia].
  - destruct s as [| c s]; simpl; [reflexivity |].
    destruct (p c) eqn:Hc; [| reflexivity].
    replace (length s <? S (length s)) with true
      by (symmetry; apply Nat.ltb_lt; lia).
    rewrite IH by (simpl in Hlen; lia).
    rewrite (Hprev (Some c) prev).
    destruct (K prev (dropWhile p s)); [reflexivity |].
    apply Hin, Hc.
Qed.

Lemma m_plus_class_cons {R : Type} (p : N -> bool) (r : regex)
    (prev : option N) (c : N) (s : jsstring) (k : @cont R) :
  m (Seq (Plus (Class p)) r) prev (c :: s) k =
  if p c
  then star_loop (m (Class p)) (length s) (Some c) s (fun p' s' => m r p' s' k)
  else None.
Proof. reflexivity. Qed.

Lemma m_plus_class {R : Type} (p : N -> bool) (prev : option N)
    (s : jsstring) (k : @cont R) :
  m (Plus (Class p)) prev s k =
  match s with
  | c :: s' =>
      if p c then star_loop (m (Class p)) (length s') (Some c) s' k else None
  | [] => None
  end.
Proof. destruct s; reflexivity. Qed.

Lemma matchAt_sentence_cons (prev : option N) (c : N) (s : jsstring) :
  matchAt reSentence prev (c :: s) =
  if isTerminator c then None else
  match dropWhile (fun d => negb (isTerminator d)) s with
  | [] => None
  | d :: r => Some (length (c :: s) - length (dropWhile isTerminator r))
  end.
Proof.
  unfold matchAt, reSentence. rewrite m_plus_class_cons.
  destruct (isTerminator c) eqn:Hc; cbn [negb]; [reflexivity |].
  rewrite star_loop_class_whole; [| | | lia].
  - rewrite m_plus_class.
    destruct (dropWhile _ s) as [| d r] eqn:Hd; [reflexivity |].
    apply dropWhile_head in Hd. apply negb_false_iff in Hd. rewrite Hd.
    apply star_loop_class; [lia | reflexivity].
  - intros p1 p2 x. rewrite !m_plus_class. reflexivity.
  - intros p' d x Hd. rewrite m_plus_class.
    apply negb_true_iff in Hd. rewrite Hd. reflexivity.
Qed.

Lemma last_run (p : N -> bool) (r pre : jsstring) (d : N) :
  p d = true ->
  exists c, last (pre ++ d :: takeWhile p r) = Some c /\ p c = true.
Proof.
  revert pre d; induction r as [| e r IH]; intros pre d Hd; simpl.
  - exists d. rewrite last_snoc. auto.
  - destruct (p e) eqn:He.
    + replace (pre ++ d :: e :: takeWhile p r)
        with ((pre ++ [d]) ++ e :: takeWhile p r)
        by (rewrite <- app_assoc; reflexivity).
      apply IH, He.
    + exists d. rewrite last_snoc. auto.
Qed.

(** Every match of the sentence pattern ends in a terminator. *)
Lemma matchAt_sentence_terminated (prev : option N) (s : jsstring) (n : nat) :
  matchAt reSentence prev s = Some n -> terminated (firstn n s).
Proof.
  destruct s as [| c s]; [discriminate |].
  rewrite matchAt_sentence_cons.
  destruct (isTerminator c); [discriminate |].
  destruct (dropWhile _ s) as [| d r] eqn:Hd; [discriminate |].
  intros [= <-].
  pose proof (takeWhile_dropWhile (fun d => negb (isTerminator d)) s) as Hs.
  rewrite Hd in Hs.
  pose proof (takeWhile_dropWhile isTerminator r) as Hr.
  set (run1 := takeWhile (fun d => negb (isTerminator d)) s) in *.
  set (run2 := takeWhile isTerminator r) in *.
  assert (Hsplit : c :: s = (c :: run1 ++ d :: run2) ++ dropWhile isTerminator r).
  { rewrite <- Hs at 1. rewrite <- Hr at 1. simpl.
    rewrite <- app_assoc. reflexivity. }
  pose proof (f_equal length Hsplit) as Hlen. rewrite length_app in Hlen.
  assert (Hn : S (length s) - length (dropWhile isTerminator r)
               = length (c :: run1 ++ d :: run2)) by (cbn [length] in *; lia).
  rewrite Hn, Hsplit, take_app_length.
  apply dropWhile_head in Hd. apply negb_false_iff in Hd.
  apply (last_run isTerminator r (c :: run1) d Hd).
Qed.

Lemma matches_terminated (s : jsstring) (prev : option N) (skip : nat) :
  Forall terminated (matches_from reSentence prev s skip).
Proof.
  revert prev skip; induction s as [| c s IH]; intros prev skip.
  - destruct skip; constructor.
  - cbn [matches_from]. destruct skip as [| skip]; [| apply IH].
    destruct (matchAt reSentence prev (c :: s)) as [[| n] |] eqn:Hm.
    + apply matchAt_sentence_terminated in Hm.
      destruct Hm as (x & Hx & _). discriminate.
    + constructor; [eapply matchAt_sentence_terminated, Hm | apply IH].
    + apply IH.
Qed.

Lemma concat_terminated (l : list jsstring) :
  l <> [] -> Forall terminated l -> terminated (concat l).
Proof.
  induction l as [| x [| y l] IH]; intros Hne Hall.
  - contradiction.
  - simpl. rewrite app_nil_r. inversion Hall; assumption.
  - inversion Hall as [| ? ? _ Hrest]; subst.
    destruct (IH ltac:(discriminate) Hrest) as (c & Hc & Ht).
    exists c. split; [| exact Ht].
    change (concat (x :: y :: l)) with (x ++ concat (y :: l)).
    rewrite last_app, Hc. reflexivity.
Qed.

End SentenceFacts.

(* ------------------------------------------------------------------ *)
(** ** Programs: running, sequencing, handlers *)

Section ProgFacts.
Context {A B : Type}.

Lemma run_bind (o : Oracle) (c : Prog A) (f : A -> Prog B) (log : Log) :
  run o log (bind c f) =
  match run o log c with
  | (inr a, log1) => run o log1 (f a)
  | (inl e, log1) => (inl e, log1)
  end.
Proof.
  revert log; induction c as [a | e | p text k IH]; intros log; simpl; auto.
Qed.

Lemma run_try_catch (o : Oracle) (c : Prog A) (h : exn -> Prog A) (log : Log) :
  run o log (try_catch c h) =
  match run o log c with
  | (inr a, log1) => (inr a, log1)
  | (inl e, log1) => run o log1 (h e)
  end.
Proof.
  revert log; induction c as [a | e | p text k IH]; intros log; simpl; auto.
Qed.

Lemma noThrow_bind (c : Prog A) (f : A -> Prog B) :
  noThrow c -> (forall a, noThrow (f a)) -> noThrow (bind c f).
Proof.
  intros Hc Hf; induction Hc as [a | p text k _ IH]; simpl; auto.
  constructor; auto.
Qed.

(** A handler that never throws makes the whole [try] statement safe. *)
Lemma noThrow_try_catch (c : Prog A) (h : exn -> Prog A) :
  (forall e, noThrow (h e)) -> noThrow (try_catch c h).
Proof.
  intros Hh; induction c as [a | e | p text k IH]; simpl; auto.
  - constructor.
  - constructor; auto.
Qed.

Lemma noThrow_run (o : Oracle) (c : Prog A) (log : Log) :
  noThrow c -> exists a log1, run o log c = (inr a, log1).
Proof.
  intros Hc; revert log; induction Hc as [a | p text k _ IH]; intros log; simpl.
  - eauto.
  - apply IH.
Qed.

Lemma run_returns (o : Oracle) (c : Prog A) (log log1 : Log) (a : A) :
  run o log c = (inr a, log1) -> returns c a.
Proof.
  revert log; induction c as [a' | e | p text k IH]; intros log; simpl.
  - intros [= ->]; constructor.
  - discriminate.
  - intros H; econstructor; eapply IH; eauto.
Qed.

Lemma run_try_catch_noThrow (o : Oracle) (c : Prog A) (h : exn -> Prog A)
    (log : Log) :
  noThrow c -> run o log (try_catch c h) = run o log c.
Proof.
  intros Hc; rewrite run_try_catch.
  destruct (noThrow_run o c log Hc) as (a & log1 & ->); reflexivity.
Qed.

End ProgFacts.

Lemma mapM_cons {A B : Type} (f : A -> Prog B) (x : A) (l : list A) :
  mapM f (x :: l) =
  bind (f x) (fun y => bind (mapM f l) (fun ys => Ret (y :: ys))).
Proof. reflexivity. Qed.

Lemma noThrow_mapM {A B : Type} (f : A -> Prog B) (l : list A) :
  (forall x, noThrow (f x)) -> noThrow (mapM f l).
Proof.
  intros Hf; induction l as [| x l IH].
  - constructor.
  - rewrite mapM_cons. apply noThrow_bind; auto.
    intros y; apply noThrow_bind; auto. intros; constructor.
Qed.

(* ------------------------------------------------------------------ *)
(** ** translateToTurkish *)

Section TranslateFacts.

Variable cheerioText : jsstring -> option jsstring.
Variable toLowerCase : jsstring -> jsstring.

Abbreviation stripHtml := (Sanitizer.stripHtml cheerioText).
Abbreviation translateToTurkish := (Translate.translateToTurkish cheerioText toLowerCase).
Abbreviation accepted := (Translate.accepted toLowerCase).
Abbreviation attempt := (Translate.attempt toLowerCase).
Abbreviation providerFails := (Translate.providerFails toLowerCase).
Abbreviation verdict := (Translate.verdict toLowerCase).

Lemma translateToTurkish_unfold (depth : nat) (text : jsstring) :
  translateToTurkish depth text =
  try_catch
    (translateBody cheerioText toLowerCase
       (match depth with
        | O => fun _ => Throw RangeError
        | S d => translateToTurkish d
        end) text)
    (fun _ => Ret (stripHtml text)).
Proof. destruct depth; reflexivity. Qed.

Lemma translateToTurkish_noThrow (depth : nat) (text : jsstring) :
  noThrow (translateToTurkish depth text).
Proof.
  rewrite translateToTurkish_unfold.
  apply noThrow_try_catch; intros; constructor.
Qed.

(** C1.  For every input, every bound on the call stack and every
    behaviour of the two providers, translateToTurkish raises no
    exception and returns a string. *)
Theorem translateToTurkish_never_raises (depth : nat) (text : jsstring) :
  noThrow (translateToTurkish depth text)
  /\ forall (o : Oracle) (log : Log),
       exists (result : jsstring) (log1 : Log),
         run o log (translateToTurkish depth text) = (inr result, log1).
Proof.
  split.
  - apply translateToTurkish_noThrow.
  - intros o log. apply noThrow_run, translateToTurkish_noThrow.
Qed.

Lemma blank_nil_iff (s : jsstring) : blank s = true <-> trim s = [].
Proof.
  unfold blank, strlen. destruct s as [| c s]; simpl.
  - split; auto.
  - rewrite Nat.eqb_eq. split.
    + intros H. destruct (trim (c :: s)); [reflexivity | discriminate].
    + intros ->; reflexivity.
Qed.

Lemma run_attempt (o : Oracle) (log : Log) (p : provider) (cleanText : jsstring) :
  run o log (attempt (Call p cleanText checked) cleanText) =
  (inr (verdict cleanText (o log p cleanText)), log ++ [(p, cleanText)]).
Proof.
  unfold Translate.attempt, Translate.verdict, checked; simpl.
  destruct (o log p cleanText) as [t |]; simpl; [| reflexivity].
  destruct (blank t); simpl; [reflexivity |].
  destruct (accepted t cleanText); reflexivity.
Qed.

(** A text that needs no chunking: Google first, LibreTranslate when
    Google yields nothing, the cleaned text when neither does. *)
Lemma run_short_text (depth : nat) (o : Oracle) (log : Log) (text : jsstring) :
  blank text = false ->
  blank (stripHtml text) = false ->
  strlen (stripHtml text) <= maxChunkSize ->
  run o log (translateToTurkish depth text) =
  let cleanText := stripHtml text in
  let log1 := log ++ [(Google, cleanText)] in
  match verdict cleanText (o log Google cleanText) with
  | Some googleTranslation => (inr googleTranslation, log1)
  | None =>
      (inr (match verdict cleanText (o log1 LibreTranslate cleanText) with
            | Some libreTranslation => libreTranslation
            | None => cleanText
            end),
       log1 ++ [(LibreTranslate, cleanText)])
  end.
Proof.
  intros Htext Hclean Hlen.
  rewrite translateToTurkish_unfold, run_try_catch.
  unfold translateBody. rewrite Htext, Hclean.
  replace (maxChunkSize <? strlen (stripHtml text)) with false
    by (symmetry; apply Nat.ltb_ge; exact Hlen).
  unfold mbind, Prog_bind, translateWithGoogle, translateWithLibreTranslate.
  rewrite run_bind, run_attempt.
  destruct (verdict (stripHtml text) (o log Google (stripHtml text))) as [g |];
    cbv beta iota; [reflexivity |].
  rewrite run_bind, run_attempt.
  destruct (verdict (stripHtml text) _) as [l |]; reflexivity.
Qed.

Lemma providerFails_verdict (cleanText : jsstring) (reply : option jsstring) :
  providerFails cleanText reply <-> verdict cleanText reply = None.
Proof.
  unfold Translate.providerFails, Translate.verdict, checked.
  destruct reply as [t |]; [| split; auto].
  destruct (blank t); [split; auto |].
  destruct (accepted t cleanText) eqn:Hacc; split.
  - intros [H | (t' & [= <-] & H')]; congruence.
  - discriminate.
  - reflexivity.
  - intros _; right; eauto.
Qed.

(** When the parser does not throw, the sanitized form is trimmed: it is
    empty or not blank. *)
Lemma sanitized_nonempty_not_blank (text extracted : jsstring) :
  cheerioText text = Some extracted ->
  stripHtml text <> [] -> blank (stripHtml text) = false.
Proof.
  unfold Sanitizer.stripHtml. intros ->. unfold cleanText, cleanWhiteSpace.
  cbv zeta. destruct (strlen _ <? 10); [congruence |].
  intros H. destruct (blank _) eqn:Hb; [| reflexivity].
  apply blank_nil_iff in Hb. rewrite trim_idempotent in Hb. contradiction.
Qed.

(** C2.  When the input and its sanitized form are not blank, the
    sanitized form has at most 500 code units, and both providers fail
    on it (each by throwing or by the acceptance test), the result is
    the sanitized input; both providers were asked, Google first. *)
Theorem both_providers_fail_passthrough (depth : nat) (o : Oracle) (log : Log)
    (text : jsstring) :
  let cleanText := stripHtml text in
  blank text = false ->
  blank cleanText = false ->
  strlen cleanText <= 500 ->
  providerFails cleanText (o log Google cleanText) ->
  providerFails cleanText
    (o (log ++ [(Google, cleanText)]) LibreTranslate cleanText) ->
  run o log (translateToTurkish depth text) =
  (inr cleanText, log ++ [(Google, cleanText)] ++ [(LibreTranslate, cleanText)]).
Proof.
  intros cleanText Htext Hclean Hlen HA HB.
  apply providerFails_verdict in HA, HB.
  rewrite run_short_text by assumption.
  cbv zeta. fold cleanText. rewrite HA, HB, <- app_assoc. reflexivity.
Qed.

Lemma accepted_iff (translation cleanText : jsstring) :
  accepted translation cleanText = true <->
  translation <> [] /\ 10 < strlen translation
  /\ toLowerCase translation <> toLowerCase cleanText.
Proof.
  unfold Translate.accepted, str_eqb.
  rewrite !andb_true_iff, negb_true_iff, bool_decide_eq_false, Nat.ltb_lt.
  destruct translation; simpl; intuition congruence.
Qed.

(** C3.  A provider result is accepted exactly when it is not empty,
    has more than 10 code units and differs from the cleaned input
    after lower-casing both.  An accepted Google result is returned
    without LibreTranslate being asked; a Google result equal to the
    cleaned input up to case is rejected, LibreTranslate is asked next
    and decides the result. *)
Theorem acceptance_test :
  (forall translation cleanText : jsstring,
     accepted translation cleanText = true <->
     translation <> [] /\ 10 < strlen translation
     /\ toLowerCase translation <> toLowerCase cleanText)
  /\ (forall (depth : nat) (o : Oracle) (log : Log) (text translation : jsstring),
        let cleanText := stripHtml text in
        blank text = false ->
        blank cleanText = false ->
        strlen cleanText <= 500 ->
        o log Google cleanText = Some translation ->
        blank translation = false ->
        accepted translation cleanText = true ->
        run o log (translateToTurkish depth text) =
        (inr translation, log ++ [(Google, cleanText)]))
  /\ (forall (depth : nat) (o : Oracle) (log : Log) (text echo : jsstring),
        let cleanText := stripHtml text in
        blank text = false ->
        blank cleanText = false ->
        strlen cleanText <= 500 ->
        o log Google cleanText = Some echo ->
        toLowerCase echo = toLowerCase cleanText ->
        accepted echo cleanText = false
        /\ run o log (translateToTurkish depth text) =
           (inr (match verdict cleanText
                         (o (log ++ [(Google, cleanText)]) LibreTranslate cleanText) with
                 | Some libreTranslation => libreTranslation
                 | None => cleanText
                 end),
            log ++ [(Google, cleanText)] ++ [(LibreTranslate, cleanText)])).
Proof.
  split; [exact accepted_iff |]. split.
  { intros depth o log text translation cleanText Htext Hclean Hlen Hreply Hb Hacc.
    rewrite run_short_text by assumption.
    cbv zeta. fold cleanText. rewrite Hreply.
    unfold Translate.verdict. rewrite Hb, Hacc. reflexivity. }
  intros depth o log text echo cleanText Htext Hclean Hlen Hreply Hecho.
  assert (Hrej : accepted echo cleanText = false).
  { destruct (accepted echo cleanText) eqn:Hacc; [| reflexivity].
    apply accepted_iff in Hacc. tauto. }
  split; [exact Hrej |].
  rewrite run_short_text by assumption.
  cbv zeta. fold cleanText. rewrite Hreply.
  unfold Translate.verdict at 1. rewrite Hrej.
  destruct (blank echo); rewrite <- app_assoc; reflexivity.
Qed.

(** C10.  An input that is empty or only white space, or whose
    sanitized form is empty or only white space (as it is when fewer
    than 10 code units are left after cleaning), comes back as it was
    given, markup included, and no provider is asked. *)
Theorem degenerate_input_returned_unchanged (depth : nat) (text : jsstring) :
  text = [] \/ trim text = []
  \/ stripHtml text = [] \/ trim (stripHtml text) = []
  \/ (exists extracted,
        cheerioText text = Some extracted
        /\ strlen (cleanWhiteSpace
                     (removeNoise (orElse (beforePipe extracted) extracted))) < 10) ->
  translateToTurkish depth text = Ret text
  /\ forall (o : Oracle) (log : Log),
       run o log (translateToTurkish depth text) = (inr text, log).
Proof.
  intros H.
  assert (Hblank : blank text = true \/ blank (stripHtml text) = true).
  { destruct H as [-> | [H | [H | [H | (extracted & Hparse & Hlen)]]]].
    - left; reflexivity.
    - left; apply blank_nil_iff; exact H.
    - right; rewrite H; reflexivity.
    - right; apply blank_nil_iff; exact H.
    - right. unfold Sanitizer.stripHtml, cleanText. rewrite Hparse.
      apply Nat.ltb_lt in Hlen. cbv zeta. rewrite Hlen. reflexivity. }
  assert (Heq : translateToTurkish depth text = Ret text).
  { rewrite translateToTurkish_unfold. unfold translateBody.
    destruct Hblank as [-> | Hb]; [reflexivity |].
    destruct (blank text); [reflexivity |]. rewrite Hb. reflexivity. }
  split; [exact Heq |].
  intros o log. rewrite Heq. reflexivity.
Qed.

(** *** The chunker *)

Lemma concat_flush (currentChunk : jsstring) :
  concat (flush currentChunk) = currentChunk.
Proof. destruct currentChunk; simpl; [reflexivity | f_equal; apply app_nil_r]. Qed.

Lemma Forall_flush (P : jsstring -> Prop) (currentChunk : jsstring) :
  P currentChunk -> Forall P (flush currentChunk).
Proof.
  intros H. unfold flush. destruct (truthy currentChunk); constructor; auto.
Qed.

(** Packing keeps every code unit of every sentence, in order. *)
Lemma pack_concat (sentences : list jsstring) (currentChunk : jsstring) :
  concat (pack currentChunk sentences) = currentChunk ++ concat sentences.
Proof.
  revert currentChunk.
  induction sentences as [| sentence rest IH]; intros currentChunk; simpl.
  - rewrite concat_flush, app_nil_r; reflexivity.
  - destruct (strlen (currentChunk ++ sentence) <=? maxChunkSize).
    + rewrite IH, <- app_assoc; reflexivity.
    + rewrite concat_app, concat_flush, IH; reflexivity.
Qed.

(** A chunk is longer than the limit only when it is one sentence that
    is. *)
Lemma pack_bounded (all sentences : list jsstring) (currentChunk : jsstring) :
  strlen currentChunk <= maxChunkSize \/ In currentChunk all ->
  (forall s, In s sentences -> In s all) ->
  Forall (fun chunk => strlen chunk <= maxChunkSize \/ In chunk all)
         (pack currentChunk sentences).
Proof.
  revert currentChunk.
  induction sentences as [| sentence rest IH]; intros currentChunk Hcur Hall; simpl.
  - apply Forall_flush, Hcur.
  - destruct (strlen (currentChunk ++ sentence) <=? maxChunkSize) eqn:Hfit.
    + apply IH; [left; apply Nat.leb_le, Hfit | intros s Hs; apply Hall; right; exact Hs].
    + apply Forall_app; split.
      * apply Forall_flush, Hcur.
      * apply IH; [right; apply Hall; left; reflexivity
                  | intros s Hs; apply Hall; right; exact Hs].
Qed.

(** A text that needs chunking: the chunks are translated one after
    the other by the function itself and joined with one space. *)
Lemma run_long_text (depth : nat) (o : Oracle) (log : Log) (text : jsstring) :
  blank text = false ->
  blank (stripHtml text) = false ->
  maxChunkSize < strlen (stripHtml text) ->
  run o log (translateToTurkish (S depth) text) =
  run o log
    (bind (mapM (translateToTurkish depth) (chunksOf (stripHtml text)))
          (fun translatedChunks => Ret (join (js " ") translatedChunks))).
Proof.
  intros Htext Hclean Hlen.
  rewrite translateToTurkish_unfold. unfold translateBody.
  rewrite Htext, Hclean.
  replace (maxChunkSize <? strlen (stripHtml text)) with true
    by (symmetry; apply Nat.ltb_lt; exact Hlen).
  unfold mbind, Prog_bind.
  apply run_try_catch_noThrow, noThrow_bind.
  - apply noThrow_mapM, translateToTurkish_noThrow.
  - intros; constructor.
Qed.

(** A text that is its own sanitized form and its own single chunk is
    handed to the function again at every level of the recursion; when
    the stack is exhausted it comes back untranslated, and no provider
    has been asked. *)
Lemma run_own_chunk (text : jsstring) :
  blank text = false ->
  stripHtml text = text ->
  maxChunkSize < strlen text ->
  chunksOf text = [text] ->
  forall (depth : nat) (o : Oracle) (log : Log),
    run o log (translateToTurkish depth text) = (inr text, log).
Proof.
  intros Htext Hfix Hlen Hchunks depth o.
  induction depth as [| depth IH]; intros log.
  - rewrite translateToTurkish_unfold, run_try_catch. unfold translateBody.
    rewrite Hfix, Htext.
    replace (maxChunkSize <? strlen text) with true
      by (symmetry; apply Nat.ltb_lt; exact Hlen).
    rewrite Hchunks. reflexivity.
  - rewrite run_long_text; rewrite ?Hfix; try assumption.
    rewrite Hchunks, mapM_cons, run_bind, run_bind, IH. reflexivity.
Qed.

(** C4.  A sanitized text that is one sentence of more than 500 code
    units becomes one chunk, the text itself, longer than the limit.
    translateToTurkish is then called on the same text at every level
    of the recursion; it returns the text untranslated and no provider
    is asked. *)
Theorem oversized_sentence_one_chunk (text : jsstring) :
  blank text = false ->
  stripHtml text = text ->
  sentencesOf text = [text] ->
  maxChunkSize < strlen text ->
  chunksOf text = [text]
  /\ ~ Forall (fun chunk => strlen chunk <= maxChunkSize) (chunksOf text)
  /\ forall (depth : nat) (o : Oracle) (log : Log),
       run o log (translateToTurkish depth text) = (inr text, log).
Proof.
  intros Hblank Hfix Hsentences Hlen.
  assert (Hchunks : chunksOf text = [text]).
  { unfold chunksOf. rewrite Hsentences. simpl.
    replace (strlen text <=? maxChunkSize) with false
      by (symmetry; apply Nat.leb_gt; exact Hlen).
    destruct text; [simpl in Hlen; lia | reflexivity]. }
  split; [exact Hchunks |]. split.
  - rewrite Hchunks. intros H. inversion H; subst. lia.
  - apply run_own_chunk; assumption.
Qed.

End TranslateFacts.

(** C5.  When the sanitized text contains a sentence and its last code
    unit is not a terminator, the chunks hold the matched sentences and
    nothing else, so they end in a terminator and do not make up the
    text: what follows the last terminator is in no chunk. *)
Theorem unterminated_tail_not_covered (cleanText : jsstring) (c : N) :
  matchAll reSentence cleanText <> [] ->
  last cleanText = Some c ->
  isTerminator c = false ->
  concat (chunksOf cleanText) = concat (matchAll reSentence cleanText)
  /\ concat (chunksOf cleanText) <> cleanText.
Proof.
  intros Hmatch Hlast Hc.
  assert (Hcover : concat (chunksOf cleanText)
                   = concat (matchAll reSentence cleanText)).
  { unfold chunksOf. rewrite pack_concat. unfold sentencesOf.
    destruct (matchAll reSentence cleanText); [contradiction | reflexivity]. }
  split; [exact Hcover |].
  rewrite Hcover. intros Heq.
  destruct (concat_terminated _ Hmatch (matches_terminated cleanText None 0))
    as (d & Hd & Ht).
  unfold matchAll in *. rewrite Heq, Hlast in Hd. congruence.
Qed.

(* ------------------------------------------------------------------ *)
(** ** Sentiment tagger *)

Section KeywordFacts.

Lemma m_Cat_cons {R : Type} (r : regex) (rs : list regex) (prev : option N)
    (s : jsstring) (k : @cont R) :
  m (Cat (r :: rs)) prev s k = m r prev s (fun prev' s' => m (Cat rs) prev' s' k).
Proof. destruct rs; reflexivity. Qed.

Lemma m_AnyOf_cons {R : Type} (r : regex) (rs : list regex) (prev : option N)
    (s : jsstring) (k : @cont R) :
  m (AnyOf (r :: rs)) prev s k =
  match m r prev s k with Some x => Some x | None => m (AnyOf rs) prev s k end.
Proof.
  destruct rs as [| r' rs]; [| reflexivity].
  simpl. destruct (m r prev s k); [reflexivity |]. destruct s; reflexivity.
Qed.

Lemma m_AnyOf_some {R : Type} (rs : list regex) (prev : option N)
    (s : jsstring) (k : @cont R) :
  m (AnyOf rs) prev s k <> None <-> exists r, In r rs /\ m r prev s k <> None.
Proof.
  induction rs as [| r rs IH].
  - simpl. split; [| intros (r & [] & _)].
    destruct s; intros H; exfalso; apply H; reflexivity.
  - rewrite m_AnyOf_cons. split.
    + destruct (m r prev s k) eqn:Hr.
      * intros _. exists r. split; [left; reflexivity | congruence].
      * intros H. apply IH in H as (r' & Hin & Hm). exists r'. split; [right |]; assumption.
    + intros (r' & [<- | Hin] & Hm).
      * destruct (m r prev s k); congruence.
      * destruct (m r prev s k); [congruence |]. apply IH. eauto.
Qed.

Lemma prevAfter_cons (prev : option N) (c : N) (read : jsstring) :
  prevAfter prev (c :: read) = prevAfter (Some c) read.
Proof.
  unfold prevAfter. destruct read as [| d read]; [reflexivity |].
  rewrite last_cons_cons. destruct (last (d :: read)) eqn:H; [reflexivity |].
  apply last_None in H. discriminate.
Qed.

(** A literal under the [i] flag reads exactly the stretches that
    lower-case to it. *)
Lemma m_LitI_some {R : Type} (w : jsstring) (prev : option N) (s : jsstring)
    (k : @cont R) :
  m (LitI w) prev s k <> None <->
  exists found rest, s = found ++ rest /\ asciiLower found = asciiLower w
                     /\ k (prevAfter prev found) rest <> None.
Proof.
  revert prev s. induction w as [| c w IH]; intros prev s.
  - simpl. split.
    + intros H. exists [], s. auto.
    + intros (found & rest & -> & Hf & Hk).
      destruct found; [exact Hk | discriminate].
  - unfold LitI. rewrite map_cons, m_Cat_cons. fold (LitI w).
    unfold ChrI at 1. cbn [m]. destruct s as [| d s].
    + split; [congruence |]. intros (found & rest & Hs & Hf & _).
      destruct found; [discriminate | discriminate].
    + destruct (N.eqb_spec (lowerAscii d) (lowerAscii c)) as [Hdc | Hdc].
      * rewrite IH. split.
        -- intros (found & rest & -> & Hf & Hk). exists (d :: found), rest.
           rewrite prevAfter_cons. repeat split; [| exact Hk].
           simpl. congruence.
        -- intros (found & rest & Hs & Hf & Hk). destruct found as [| d' found]; [discriminate |].
           simpl in Hs, Hf. injection Hs as <- ->. injection Hf as _ Hf.
           rewrite prevAfter_cons in Hk. eauto.
      * split; [congruence |]. intros (found & rest & Hs & Hf & _).
        destruct found as [| d' found]; [discriminate |].
        simpl in Hs, Hf. injection Hs as <- _. injection Hf as Hd _. contradiction.
Qed.

Lemma search_from_true (r : regex) (prev : option N) (s : jsstring) :
  search_from r prev s = true <->
  exists before rest, s = before ++ rest /\ matchAt r (prevAfter prev before) rest <> None.
Proof.
  revert prev. induction s as [| c s IH]; intros prev.
  - simpl. split.
    + destruct (matchAt r prev []) eqn:H; [| discriminate].
      intros _. exists [], []. split; [reflexivity |]. simpl. unfold prevAfter. simpl. congruence.
    + intros (before & rest & Hs & Hm). symmetry in Hs. apply app_eq_nil in Hs as [-> ->].
      unfold prevAfter in Hm. simpl in Hm. destruct (matchAt r prev []); congruence.
  - cbn [search_from]. destruct (matchAt r prev (c :: s)) eqn:H.
    + split; [| reflexivity]. intros _. exists [], (c :: s). split; [reflexivity |].
      unfold prevAfter. simpl. congruence.
    + rewrite IH. split.
      * intros (before & rest & -> & Hm). exists (c :: before), rest.
        rewrite prevAfter_cons. auto.
      * intros (before & rest & Hs & Hm). destruct before as [| c' before].
        -- simpl in Hs. subst rest. unfold prevAfter in Hm. simpl in Hm. congruence.
        -- simpl in Hs. injection Hs as <- ->. rewrite prevAfter_cons in Hm. eauto.
Qed.

Lemma lowerAscii_word (c d : N) :
  isLowerAscii c = true -> lowerAscii d = lowerAscii c -> isWordChar d = true.
Proof.
  unfold isLowerAscii, lowerAscii, isUpperAscii, isWordChar.
  intros Hc Hd.
  apply andb_true_iff in Hc as [H1 H2]. apply N.leb_le in H1, H2.
  replace ((65 <=? c)%N) with true in Hd by (symmetry; apply N.leb_le; lia).
  replace ((c <=? 90)%N) with false in Hd by (symmetry; apply N.leb_gt; lia).
  simpl in Hd.
  destruct (N.leb_spec 65 d), (N.leb_spec d 90); simpl in Hd;
    repeat match goal with
           | |- context [(?a <=? ?b)%N] => destruct (N.leb_spec a b)
           | |- context [(?a =? ?b)%N] => destruct (N.eqb_spec a b)
           end; simpl; try reflexivity; lia.
Qed.

Lemma found_word (w found : jsstring) :
  w <> [] -> lowerLetters w = true -> asciiLower found = asciiLower w ->
  isWordOpt (head found) = true /\ isWordOpt (last found) = true
  /\ forall prev, prevAfter prev found = last found.
Proof.
  intros Hw Hl Hf.
  assert (Hall : Forall (fun d => isWordChar d = true) found).
  { clear Hw. revert w Hl Hf. induction found as [| d found IH]; intros w Hl Hf; [constructor |].
    destruct w as [| c w]; [discriminate |].
    simpl in Hl, Hf. apply andb_true_iff in Hl as [Hc Hl]. injection Hf as Hd Hf.
    constructor; [eapply lowerAscii_word; eauto | eapply IH; eauto]. }
  assert (Hne : found <> []).
  { intros ->. destruct w; [congruence | discriminate]. }
  repeat split.
  - destruct found as [| d found]; [congruence |]. simpl. inversion Hall; assumption.
  - destruct (last found) as [d |] eqn:Hlast; [| apply last_None in Hlast; congruence].
    simpl. rewrite List.Forall_forall in Hall. apply Hall.
    apply last_Some in Hlast as [l' ->]. apply in_app_iff. right. left. reflexivity.
  - intros prev. unfold prevAfter.
    destruct (last found) eqn:Hlast; [reflexivity |]. apply last_None in Hlast. congruence.
Qed.

(** What [/\b(w1|w2|...)\b/i] finds, for words of lower-case letters. *)
Lemma test_keywords (words : list string) (content : jsstring) :
  forallb (fun w => truthy (js w) && lowerLetters (js w)) words = true ->
  test (keywords words) content = true <-> mentions words content.
Proof.
  intros Hwords. rewrite forallb_forall in Hwords.
  unfold test. rewrite search_from_true. unfold mentions, occursAsWord.
  assert (Hkw : forall prev rest,
    matchAt (keywords words) prev rest <> None <->
    exists w found after, In w words /\ rest = found ++ after
      /\ asciiLower found = asciiLower (js w)
      /\ isWordOpt prev = false /\ isWordOpt (head after) = false).
  { intros prev rest. unfold matchAt, keywords.
    rewrite m_Cat_cons. cbn [m].
    destruct (xorb (isWordOpt prev) (isWordOpt (head rest))) eqn:Hb.
    - rewrite m_Cat_cons, m_AnyOf_some. split.
      + intros (r & Hin & Hm). apply in_map_iff in Hin as (w & <- & Hin).
        apply m_LitI_some in Hm as (found & after & -> & Hf & Hm).
        specialize (Hwords w Hin). apply andb_true_iff in Hwords as [Hne Hl].
        assert (Hw : js w <> []) by (intros E; rewrite E in Hne; discriminate).
        destruct (found_word _ _ Hw Hl Hf) as (Hh & Hla & Hp).
        rewrite Hp in Hm. cbn [Cat m] in Hm.
        assert (Hhead : head (found ++ after) = head found).
        { destruct found; [| reflexivity]. discriminate. }
        rewrite Hhead, Hh in Hb. rewrite Hla in Hm.
        exists w, found, after. repeat split; try assumption.
        * destruct (isWordOpt prev); [discriminate | reflexivity].
        * simpl in Hm. destruct (isWordOpt (head after)); [| reflexivity].
          simpl in Hm. congruence.
      + intros (w & found & after & Hin & -> & Hf & Hprev & Hafter).
        exists (LitI (js w)). split; [apply in_map_iff; eauto |].
        apply m_LitI_some. exists found, after. repeat split; [assumption |].
        specialize (Hwords w Hin). apply andb_true_iff in Hwords as [Hne Hl].
        assert (Hw : js w <> []) by (intros E; rewrite E in Hne; discriminate).
        destruct (found_word _ _ Hw Hl Hf) as (Hh & Hla & Hp).
        rewrite Hp. cbn [Cat m]. rewrite Hla, Hafter. simpl. congruence.
    - split; [congruence |].
      intros (w & found & after & Hin & -> & Hf & Hprev & Hafter).
      specialize (Hwords w Hin). apply andb_true_iff in Hwords as [Hne Hl].
      assert (Hw : js w <> []) by (intros E; rewrite E in Hne; discriminate).
      destruct (found_word _ _ Hw Hl Hf) as (Hh & Hla & Hp).
      assert (Hhead : head (found ++ after) = head found).
      { destruct found; [| reflexivity]. discriminate. }
      rewrite Hhead, Hh, Hprev in Hb. discriminate. }
  split.
  - intros (before & rest & -> & Hm).
    apply Hkw in Hm as (w & found & after & Hin & -> & Hf & Hprev & Hafter).
    exists w. split; [assumption |]. exists before, found, after.
    repeat split; try assumption.
    unfold prevAfter in Hprev. destruct (last before); [assumption | reflexivity].
  - intros (w & Hin & before & found & after & -> & Hf & Hprev & Hafter).
    exists before, (found ++ after). split; [reflexivity |].
    apply Hkw. exists w, found, after. repeat split; try assumption.
    unfold prevAfter. destruct (last before); [assumption | reflexivity].
Qed.

End KeywordFacts.

Section SentimentFacts.

Variable cheerioText : jsstring -> option jsstring.
Variable toLowerCase : jsstring -> jsstring.

Abbreviation sentimentOf := (Translate.sentimentOf toLowerCase).

Lemma isAscii_forallb (s : jsstring) :
  forallb (fun c => (c <? 128)%N) s = true -> isAscii s.
Proof.
  unfold isAscii. rewrite forallb_forall, List.Forall_forall.
  intros H c Hc. apply N.ltb_lt, H, Hc.
Qed.

(** C6.  Let the content be the title, one space and the body (nothing
    for the body when there is none), lower-cased.  The tag is
    "negative" exactly when the content has one of the fourteen negative
    keywords as a whole word, "positive" exactly when it has one of the
    fourteen positive keywords as a whole word and no negative one, and
    "neutral" exactly when it has neither; both summaries carry this
    tag; and, for a case mapping that is the Basic Latin one on Basic
    Latin text, the three sample titles are tagged positive, negative
    and neutral, a keyword that stands in the body alone counts in
    either case of its letters, a negative keyword of the body overrides
    a positive one of the title, title and body are kept apart by the
    space, and a keyword inside a longer word does not count. *)
Theorem sentiment_rule :
  (forall (title : jsstring) (text : option jsstring),
     let content :=
       toLowerCase
         (title ++ js " " ++ match text with Some body => body | None => [] end) in
     let positive :=
       mentions ["up"; "rise"; "gain"; "bull"; "surge"; "rally"; "boost"; "grow";
                 "positive"; "profit"; "success"; "launch"; "partner";
                 "adoption"]%string content in
     let negative :=
       mentions ["down"; "fall"; "drop"; "bear"; "crash"; "decline"; "loss";
                 "negative"; "hack"; "scam"; "fail"; "lawsuit"; "ban";
                 "regulate"]%string content in
     (sentimentOf title text = Negative <-> negative)
     /\ (sentimentOf title text = Positive <-> positive /\ ~ negative)
     /\ (sentimentOf title text = Neutral <-> ~ positive /\ ~ negative))
  /\ (forall (title : jsstring) (text : option jsstring),
        summarizeInEnglish toLowerCase title text =
        Ret {| summary := title; sentiment := sentimentOf title text |})
  /\ (forall (depth : nat) (title : jsstring) (text : option jsstring)
             (o : Oracle) (log : Log),
        exists (s : jsstring) (log1 : Log),
          run o log (summarizeAndTranslate cheerioText toLowerCase depth title text) =
          (inr {| summary := s; sentiment := sentimentOf title text |}, log1))
  /\ ((forall s, isAscii s -> toLowerCase s = asciiLower s) ->
      sentimentOf (js "prices surge after rally") None = Positive
      /\ sentimentOf (js "hack causes crash") None = Negative
      /\ sentimentOf (js "quarterly report released") None = Neutral
      /\ sentimentOf (js "quarterly report released")
                     (Some (js "New PARTNER announced")) = Positive
      /\ sentimentOf (js "quarterly report released")
                     (Some (js "Shares CRASH overnight")) = Negative
      /\ sentimentOf (js "prices surge") (Some (js "after the hack")) = Negative
      /\ sentimentOf (js "gro") (Some (js "w")) = Neutral
      /\ sentimentOf (js "upside for suppliers") (Some (js "banner year")) = Neutral).
Proof.
  split; [| split; [| split]].
  - intros title text content positive negative.
    assert (Hpos : test rePositive content = true <-> positive)
      by (apply test_keywords; vm_compute; reflexivity).
    assert (Hneg : test reNegative content = true <-> negative)
      by (apply test_keywords; vm_compute; reflexivity).
    unfold Translate.sentimentOf, Translate.contentOf. fold content.
    destruct (test rePositive content), (test reNegative content);
      repeat split; intros; try discriminate; try tauto;
      intuition discriminate.
  - reflexivity.
  - intros depth title text o log.
    unfold summarizeAndTranslate, mbind, Prog_bind.
    rewrite run_try_catch, run_bind.
    destruct (noThrow_run o (translateToTurkish cheerioText toLowerCase depth title) log
                (translateToTurkish_noThrow _ _ _ _)) as (t & log1 & ->).
    simpl. eauto.
  - intros Hlower. unfold Translate.sentimentOf, Translate.contentOf.
    rewrite !Hlower by (apply isAscii_forallb; vm_compute; reflexivity).
    repeat split; vm_compute; reflexivity.
Qed.

End SentimentFacts.

(* ------------------------------------------------------------------ *)
(** ** Batch translation *)

Section BatchFacts.
Context {A : Type}.

Lemma stepTask_residual (o : Oracle) (tasks : Pool A) (st : Pool A * Log) (i : nat) :
  Forall2 residual tasks st.1 -> Forall2 residual tasks (stepTask o st i).1.
Proof.
  intros H. unfold stepTask.
  destruct (st.1 !! i) as [[a | e | p text k] |] eqn:Hi; try exact H.
  simpl.
  destruct (Forall2_lookup_r _ _ _ _ _ H Hi) as (task & Htask & Hres).
  rewrite <- (list_insert_id tasks i task Htask).
  apply Forall2_insert; [exact H |].
  intros a Ha. apply Hres. econstructor; exact Ha.
Qed.

Lemma stepTask_noThrow (o : Oracle) (st : Pool A * Log) (i : nat) :
  Forall noThrow st.1 -> Forall noThrow (stepTask o st i).1.
Proof.
  intros H. unfold stepTask.
  destruct (st.1 !! i) as [[a | e | p text k] |] eqn:Hi; try exact H.
  simpl. apply Forall_insert; [exact H |].
  pose proof (Forall_lookup_1 _ _ _ _ H Hi) as Hc.
  inversion Hc; subst; auto.
Qed.

Lemma runSchedule_invariant (o : Oracle) (tasks : Pool A) (schedule : list nat)
    (st : Pool A * Log) :
  Forall2 residual tasks st.1 -> Forall noThrow st.1 ->
  Forall2 residual tasks (runSchedule o schedule st).1
  /\ Forall noThrow (runSchedule o schedule st).1.
Proof.
  unfold runSchedule. revert st.
  induction schedule as [| i schedule IH]; intros st H1 H2; simpl; [auto |].
  apply IH; [apply stepTask_residual | apply stepTask_noThrow]; assumption.
Qed.

Lemma settleAll_noThrow (o : Oracle) (log : Log) (pool : Pool A) :
  Forall noThrow pool ->
  exists (results : list A) (log1 : Log),
    settleAll o log pool = (List.map inr results, log1)
    /\ Forall2 returns pool results.
Proof.
  intros H; revert log; induction H as [| c pool Hc _ IH]; intros log; simpl.
  - exists [], log; split; [reflexivity | constructor].
  - destruct (noThrow_run o c log Hc) as (v & log1 & Hrun). rewrite Hrun.
    destruct (IH log1) as (results & log2 & -> & Hall).
    exists (v :: results), log2; split; [reflexivity |].
    constructor; [eapply run_returns; eauto | exact Hall].
Qed.

Lemma allFulfilled_inr (results : list A) :
  allFulfilled (List.map inr results) = inr results.
Proof.
  induction results as [| a results IH]; simpl; [reflexivity |].
  rewrite IH; reflexivity.
Qed.

Lemma Forall2_residual_refl (tasks : Pool A) : Forall2 residual tasks tasks.
Proof.
  induction tasks as [| task tasks IH]; constructor; [| exact IH].
  intros v Hv; exact Hv.
Qed.

(** [Promise.all] over tasks that cannot throw: one result per task, in
    the order of the tasks, each a value its own task returns. *)
Lemma promiseAll_noThrow (o : Oracle) (schedule : list nat) (tasks : Pool A)
    (log : Log) :
  Forall noThrow tasks ->
  exists (results : list A) (log1 : Log),
    promiseAll o schedule tasks log = (inr results, log1)
    /\ Forall2 returns tasks results.
Proof.
  intros Hsafe. unfold promiseAll.
  destruct (runSchedule_invariant o tasks schedule (tasks, log)
              (Forall2_residual_refl tasks) Hsafe) as [Hres Hsafe'].
  destruct (runSchedule o schedule (tasks, log)) as [pool log1]; simpl in *.
  destruct (settleAll_noThrow o log1 pool Hsafe') as (results & log2 & -> & Hret).
  exists results, log2. rewrite allFulfilled_inr. split; [reflexivity |].
  clear - Hres Hret. revert results Hret.
  induction Hres as [| task rest tasks pool Htask _ IH]; intros results Hret.
  - inversion Hret; constructor.
  - inversion Hret as [| ? a ? results' Ha Hrest]; subst.
    constructor; [apply Htask, Ha | apply IH, Hrest].
Qed.

(** *** Providers without memory *)

Lemma run_stateless (o : Oracle) (c : Prog A) (log : Log) :
  stateless o -> (run o log c).1 = outcome o c.
Proof.
  intros Ho. unfold outcome. generalize (@nil (provider * jsstring)) as log'.
  revert log; induction c as [v | e | p text k IH]; intros log log'; simpl; auto.
  rewrite (Ho log log' p text). apply IH.
Qed.

Lemma stepTask_outcome (o : Oracle) (tasks : Pool A) (st : Pool A * Log) (i : nat) :
  stateless o ->
  Forall2 (fun task rest => outcome o task = outcome o rest) tasks st.1 ->
  Forall2 (fun task rest => outcome o task = outcome o rest) tasks (stepTask o st i).1.
Proof.
  intros Ho H. unfold stepTask.
  destruct (st.1 !! i) as [[v | e | p text k] |] eqn:Hi; try exact H.
  simpl.
  destruct (Forall2_lookup_r _ _ _ _ _ H Hi) as (task & Htask & Hres).
  rewrite <- (list_insert_id tasks i task Htask).
  apply Forall2_insert; [exact H |].
  rewrite Hres. unfold outcome at 1. simpl.
  rewrite (Ho [] st.2 p text). apply run_stateless, Ho.
Qed.

Lemma runSchedule_outcome (o : Oracle) (tasks : Pool A) (schedule : list nat)
    (st : Pool A * Log) :
  stateless o ->
  Forall2 (fun task rest => outcome o task = outcome o rest) tasks st.1 ->
  Forall2 (fun task rest => outcome o task = outcome o rest) tasks
          (runSchedule o schedule st).1.
Proof.
  intros Ho. unfold runSchedule. revert st.
  induction schedule as [| i schedule IH]; intros st H; simpl; [exact H |].
  apply IH, stepTask_outcome; assumption.
Qed.

Lemma settleAll_outcome (o : Oracle) (log : Log) (pool : Pool A) :
  stateless o -> (settleAll o log pool).1 = List.map (outcome o) pool.
Proof.
  intros Ho. revert log; induction pool as [| c pool IH]; intros log; simpl.
  - reflexivity.
  - pose proof (run_stateless o c log Ho) as Hc.
    destruct (run o log c) as [r log1]. specialize (IH log1).
    destruct (settleAll o log1 pool) as [rs log2]. simpl in *. congruence.
Qed.

(** With such providers the value of [Promise.all] does not depend on
    the order in which the replies arrive. *)
Lemma promiseAll_stateless (o : Oracle) (schedule : list nat) (tasks : Pool A)
    (log : Log) :
  stateless o ->
  (promiseAll o schedule tasks log).1 = allFulfilled (List.map (outcome o) tasks).
Proof.
  intros Ho. unfold promiseAll.
  pose proof (runSchedule_outcome o tasks schedule (tasks, log) Ho) as H.
  destruct (runSchedule o schedule (tasks, log)) as [pool log1]. simpl in H.
  pose proof (settleAll_outcome o log1 pool Ho) as Hs.
  destruct (settleAll o log1 pool) as [rs log2]. simpl in *. subst rs.
  f_equal. symmetry.
  assert (Hrefl : Forall2 (fun task rest : Prog A => outcome o task = outcome o rest)
                          tasks tasks).
  { clear. induction tasks; constructor; auto. }
  specialize (H Hrefl). clear Hrefl.
  induction H as [| task rest tasks pool Heq _ IH]; simpl; [reflexivity |].
  rewrite Heq, IH. reflexivity.
Qed.

Lemma allFulfilled_inr_inv (rs : list (exn + A)) (results : list A) :
  allFulfilled rs = inr results -> rs = List.map inr results.
Proof.
  revert results; induction rs as [| [e | v] rs IH]; intros results; simpl.
  - intros [= <-]; reflexivity.
  - discriminate.
  - destruct (allFulfilled rs) as [e | l]; [discriminate |].
    intros [= <-]. simpl. rewrite (IH l eq_refl). reflexivity.
Qed.

End BatchFacts.

Section TranslateBatchFacts.

Variable cheerioText : jsstring -> option jsstring.
Variable toLowerCase : jsstring -> jsstring.

Abbreviation translateBatch := (Translate.translateBatch cheerioText toLowerCase).

(** C8.  Whatever the order in which the replies of the providers
    arrive, translateBatch returns one string per input, the i-th being
    a result of translateToTurkish on the i-th input (exactly the
    result of translating that input on its own when the providers
    answer each request independently of the others); and when
    [Promise.all] rejects, the inputs themselves are returned. *)
Theorem translateBatch_preserves_order :
  (forall (depth : nat) (o : Oracle) (schedule : list nat)
          (texts : list jsstring) (log : Log),
     let translations := (translateBatch depth o schedule texts log).1 in
     length translations = length texts
     /\ Forall2 (fun text translation =>
                   returns (translateToTurkish cheerioText toLowerCase depth text)
                           translation)
                texts translations
     /\ (stateless o ->
         Forall2 (fun text translation =>
                    outcome o (translateToTurkish cheerioText toLowerCase depth text)
                    = inr translation)
                 texts translations))
  /\ (forall (translate : jsstring -> Prog jsstring) (o : Oracle)
             (schedule : list nat) (texts : list jsstring) (log log1 : Log)
             (e : exn),
        promiseAll o schedule (List.map translate texts) log = (inl e, log1) ->
        translateBatchWith translate o schedule texts log = (texts, log1)).
Proof.
  split.
  - intros depth o schedule texts log.
    unfold Translate.translateBatch, translateBatchWith.
    destruct (promiseAll_noThrow o schedule
                (List.map (translateToTurkish cheerioText toLowerCase depth) texts) log)
      as (results & log1 & Hpromise & Hret).
    { apply List.Forall_forall. intros c Hc. apply in_map_iff in Hc.
      destruct Hc as (text & <- & _). apply translateToTurkish_noThrow. }
    rewrite Hpromise. simpl.
    assert (H : Forall2 (fun text translation =>
                returns (translateToTurkish cheerioText toLowerCase depth text)
                        translation) texts results).
    { clear - Hret. revert results Hret.
      induction texts as [| text texts IH]; intros results Hret; simpl in Hret.
      - inversion Hret; constructor.
      - inversion Hret; subst; constructor; auto. }
    split; [symmetry; eapply Forall2_length; exact H |].
    split; [exact H |].
    intros Ho.
    pose proof (promiseAll_stateless o schedule
                  (List.map (translateToTurkish cheerioText toLowerCase depth) texts)
                  log Ho) as Hall.
    rewrite Hpromise in Hall. simpl in Hall. symmetry in Hall.
    apply allFulfilled_inr_inv in Hall. clear - Hall.
    revert results Hall.
    induction texts as [| text texts IH]; intros [| r results]; simpl;
      try discriminate; constructor.
    + congruence.
    + apply IH. congruence.
  - intros translate o schedule texts log log1 e H.
    unfold translateBatchWith. rewrite H. reflexivity.
Qed.

End TranslateBatchFacts.

(* ------------------------------------------------------------------ *)
(** ** The translate endpoint *)

Section RouteFacts.

Import Route.

Variable cheerioText : jsstring -> option jsstring.
Variable translateWithGoogle : jsstring -> option jsstring.

Abbreviation POST := (Route.POST cheerioText translateWithGoogle).
Abbreviation handle := (Route.handle cheerioText translateWithGoogle).

(** The test of POST rejects exactly what is not a string or is a blank
    string; a missing [text] is [undefined]. *)
Lemma invalidText_iff (text : jsvalue) :
  invalidText text = false <->
  exists s, text = VString s /\ Translate.blank s = false.
Proof.
  unfold invalidText, Translate.blank. split.
  - destruct text; simpl; try discriminate;
      try (rewrite ?orb_true_r; discriminate).
    intros H. exists s. split; [reflexivity |].
    rewrite orb_false_r in H. exact H.
  - intros (s & -> & H). simpl. rewrite orb_false_r. exact H.
Qed.

(** A text that is missing, not a string or blank is answered with
    status 400 and an error. *)
Lemma POST_invalid_text (v text : jsvalue) :
  textOf v = inr text ->
  invalidText text = true ->
  POST {| body := Json v; bodyUsed := false |} =
  (inr badRequest, {| body := Json v; bodyUsed := true |}).
Proof.
  intros Htext H. unfold Route.POST, Route.handle; simpl.
  rewrite Htext, H. reflexivity.
Qed.

(** Once the [try] block has thrown, the body cannot be read again. *)
Lemma handle_throws_body_unreadable (request request1 : Request) (e : thrown) :
  handle request = (inl e, request1) ->
  exists e1, request_json request1 = (inl e1, request1).
Proof.
  unfold Route.handle, request_json.
  destruct request as [[| | v] used]; simpl.
  - intros [= <- <-]. eauto.
  - destruct used; intros [= <- <-]; simpl; eauto.
  - destruct used; simpl; [intros [= <- <-]; simpl; eauto |].
    intros H. exists TypeError.
    assert (request1 = {| body := Json v; bodyUsed := true |}) as ->;
      [| reflexivity].
    destruct (textOf v) as [e' | text]; [congruence |].
    destruct (invalidText text); [congruence |].
    destruct text; try congruence.
    destruct (strlen (trim (Route.stripHtml cheerioText s)) =? 0); [congruence |].
    destruct (translateWithGoogle _) as [t |]; [destruct (truthy t) |]; congruence.
Qed.

(** POST never answers with status 500: when its [try] block throws,
    so does its [catch] block. *)
Lemma POST_never_500 (request request1 : Request) (response : Response) :
  POST request = (inr response, request1) -> status response <> 500.
Proof.
  unfold Route.POST.
  destruct (handle request) as [[e | response'] request'] eqn:Hh.
  - destruct (handle_throws_body_unreadable _ _ _ Hh) as (e1 & ->). discriminate.
  - intros [= <- <-]. revert Hh. unfold Route.handle.
    destruct (request_json request) as [[e | v] r]; [discriminate |].
    destruct (textOf v) as [e' | text]; [discriminate |].
    destruct (invalidText text); [intros [= <- _]; discriminate |].
    destruct text; try (intros [= <- _]; discriminate).
    destruct (strlen (trim (Route.stripHtml cheerioText s)) =? 0);
      [intros [= <- _]; discriminate |].
    destruct (translateWithGoogle _) as [t |]; [destruct (truthy t) |];
      try discriminate.
    intros [= <- _]; discriminate.
Qed.

(** C9.  For a request whose text is a string that is not blank, also
    after cleaning, POST does not answer when the provider yields
    nothing: the [catch] block reads the body a second time, which
    throws a TypeError, the body having been read in the [try] block. *)
Theorem POST_provider_failure_throws (fields : list (jsstring * jsvalue))
    (text : jsstring) :
  lookupField (js "text") fields = VString text ->
  invalidText (VString text) = false ->
  strlen (trim (Route.stripHtml cheerioText text)) <> 0 ->
  translateWithGoogle (Route.stripHtml cheerioText text) = None
  \/ translateWithGoogle (Route.stripHtml cheerioText text) = Some [] ->
  POST {| body := Json (VObject fields); bodyUsed := false |} =
  (inl TypeError, {| body := Json (VObject fields); bodyUsed := true |}).
Proof.
  intros Hfield Hvalid Hclean Hfail.
  unfold Route.POST, Route.handle; simpl.
  rewrite Hfield, Hvalid.
  apply Nat.eqb_neq in Hclean. rewrite Hclean.
  destruct Hfail as [-> | ->]; reflexivity.
Qed.

End RouteFacts.

(* ------------------------------------------------------------------ *)
(** ** The sample inputs *)

(** Sixty sentences followed by four code units without a terminator:
    the text is its own sanitized form and has 604 code units; its
    chunks are the sixty sentences only, and the providers are asked
    for the sixty sentences alone. *)
Lemma trailing_fragment_dropped :
  Sanitizer.stripHtml plainText unterminatedTail = unterminatedTail
  /\ strlen unterminatedTail = 604
  /\ concat (chunksOf unterminatedTail) = sixtySentences
  /\ concat (chunksOf unterminatedTail) <> unterminatedTail
  /\ (run (constOracle None None) []
          (translateToTurkish plainText asciiLower 1 unterminatedTail)).1
     = inr (firstn 500 sixtySentences ++ js " " ++ skipn 500 sixtySentences).
Proof.
  repeat split; try (vm_compute; reflexivity).
  vm_compute. discriminate.
Qed.

(* ------------------------------------------------------------------ *)
(** ** Instances *)

(** Both providers throw on "Hello world how are you": the cleaned
    text comes back. *)
Lemma both_providers_fail_passthrough_witness :
  let text := js "Hello world how are you" in
  let o := constOracle None None in
  run o [] (translateToTurkish plainText asciiLower 0 text) =
  (inr text, [(Google, text)] ++ [(LibreTranslate, text)]).
Proof.
  intros text o.
  apply (both_providers_fail_passthrough plainText asciiLower 0 o [] text).
  - reflexivity.
  - reflexivity.
  - apply Nat.leb_le. vm_compute. reflexivity.
  - left. reflexivity.
  - left. reflexivity.
Defined.

(** Google echoes the input in capitals; LibreTranslate throws. *)
Lemma acceptance_test_witness :
  let text := js "Hello world how are you" in
  let echo := js "HELLO WORLD HOW ARE YOU" in
  let o := constOracle (Some echo) None in
  Translate.accepted asciiLower echo text = false
  /\ run o [] (translateToTurkish plainText asciiLower 0 text) =
     (inr text, [(Google, text)] ++ [(LibreTranslate, text)]).
Proof.
  intros text echo o.
  apply (proj2 (proj2 (acceptance_test plainText asciiLower)) 0 o [] text echo).
  - reflexivity.
  - reflexivity.
  - apply Nat.leb_le. vm_compute. reflexivity.
  - reflexivity.
  - reflexivity.
Defined.

(** Eight code units are left of "hi there": too few. *)
Lemma degenerate_input_returned_unchanged_witness :
  let text := js "hi there" in
  translateToTurkish plainText asciiLower 0 text = Ret text
  /\ forall (o : Oracle) (log : Log),
       run o log (translateToTurkish plainText asciiLower 0 text) = (inr text, log).
Proof.
  intros text.
  apply (degenerate_input_returned_unchanged plainText asciiLower 0 text).
  right; right; left. reflexivity.
Defined.

Lemma sentiment_rule_witness :
  Translate.sentimentOf asciiLower (js "prices surge after rally") None = Positive
  /\ Translate.sentimentOf asciiLower (js "hack causes crash") None = Negative
  /\ Translate.sentimentOf asciiLower (js "quarterly report released") None = Neutral
  /\ Translate.sentimentOf asciiLower (js "quarterly report released")
                           (Some (js "New PARTNER announced")) = Positive
  /\ Translate.sentimentOf asciiLower (js "quarterly report released")
                           (Some (js "Shares CRASH overnight")) = Negative
  /\ Translate.sentimentOf asciiLower (js "prices surge")
                           (Some (js "after the hack")) = Negative
  /\ Translate.sentimentOf asciiLower (js "gro") (Some (js "w")) = Neutral
  /\ Translate.sentimentOf asciiLower (js "upside for suppliers")
                           (Some (js "banner year")) = Neutral.
Proof.
  apply (proj2 (proj2 (proj2 (sentiment_rule plainText asciiLower)))).
  intros s _. reflexivity.
Defined.

(** A batch whose items throw comes back as it was given. *)
Lemma translateBatch_preserves_order_witness :
  translateBatchWith failingTranslate (constOracle None None) []
    [js "A"; js "B"] [] = ([js "A"; js "B"], []).
Proof.
  apply (proj2 (translateBatch_preserves_order plainText asciiLower)
           failingTranslate (constOracle None None) [] [js "A"; js "B"] [] []
           ProviderError).
  reflexivity.
Defined.

Lemma sanitize_idempotent_on_clean_text_witness :
  let x := js "  Bitcoin price   rises today | more " in
  Sanitizer.stripHtml plainText (Sanitizer.stripHtml plainText x)
  = Sanitizer.stripHtml plainText x.
Proof.
  intros x.
  apply (sanitize_idempotent_on_clean_text plainText x).
  - reflexivity.
  - vm_compute. reflexivity.
  - reflexivity.
  - vm_compute. reflexivity.
Defined.

(** The body is [{"text": "Hello world"}] and the provider yields
    nothing. *)
Lemma POST_provider_failure_throws_witness :
  Route.POST plainText (fun _ => None) helloRequest =
  (inl Route.TypeError,
   {| Route.body := Route.body helloRequest; Route.bodyUsed := true |}).
Proof.
  apply (POST_provider_failure_throws plainText (fun _ => None)
           [(js "text", Route.VString (js "Hello world"))] (js "Hello world")).
  - reflexivity.
  - reflexivity.
  - vm_compute. discriminate.
  - left. reflexivity.
Defined.

(** 501 letters and a full stop. *)
Lemma oversized_sentence_one_chunk_witness :
  strlen oversizedSentence = 502
  /\ chunksOf oversizedSentence = [oversizedSentence]
  /\ ~ Forall (fun chunk => strlen chunk <= maxChunkSize)
              (chunksOf oversizedSentence)
  /\ forall (depth : nat) (o : Oracle) (log : Log),
       run o log (translateToTurkish plainText asciiLower depth oversizedSentence)
       = (inr oversizedSentence, log).
Proof.
  split; [vm_compute; reflexivity |].
  apply (oversized_sentence_one_chunk plainText asciiLower oversizedSentence).
  - vm_compute. reflexivity.
  - vm_compute. reflexivity.
  - vm_compute. reflexivity.
  - apply Nat.ltb_lt. vm_compute. reflexivity.
Defined.

(** Sixty sentences and "tail". *)
Lemma unterminated_tail_not_covered_witness :
  concat (chunksOf unterminatedTail) = concat (matchAll reSentence unterminatedTail)
  /\ concat (chunksOf unterminatedTail) <> unterminatedTail.
Proof.
  apply (unterminated_tail_not_covered unterminatedTail 108%N).
  - vm_compute. discriminate.
  - vm_compute. reflexivity.
  - reflexivity.
Defined.

(* ------------------------------------------------------------------ *)
(** ** retryWithBackoff *)

Section RetryFacts.
Context {E T number : Type}.
Variable zero : number.
Variable incr : number -> number.
Variable lt : number -> number -> bool.
Variable minusOne : number -> number.
Variable timesPow2 : number -> number -> number.
Variable fn : nat -> E + T.

Abbreviation index := (Retry.index zero incr).
Abbreviation waits := (Retry.waits zero incr lt minusOne timesPow2).
Abbreviation retryLoop := (Retry.retryLoop incr lt minusOne timesPow2 fn).
Abbreviation retryWithBackoff :=
  (Retry.retryWithBackoff zero incr lt minusOne timesPow2 fn).

Lemma waits_cons (maxRetries initialDelay : number) (from count : nat) :
  waits maxRetries initialDelay from (S count) =
  (if lt (index from) (minusOne maxRetries)
   then [timesPow2 initialDelay (index from)] else [])
  ++ waits maxRetries initialDelay (S from) count.
Proof.
  unfold Retry.waits. cbn [seq List.filter].
  destruct (lt (index from) (minusOne maxRetries)); reflexivity.
Qed.

Lemma slept_cons (maxRetries initialDelay : number) (from count : nat)
    (slept : list number) :
  (if lt (index from) (minusOne maxRetries)
   then slept ++ [timesPow2 initialDelay (index from)] else slept)
  ++ waits maxRetries initialDelay (S from) count
  = slept ++ waits maxRetries initialDelay from (S count).
Proof.
  rewrite waits_cons.
  destruct (lt (index from) (minusOne maxRetries)).
  - rewrite <- app_assoc. reflexivity.
  - reflexivity.
Qed.

(** The loop after [calls] failed calls, when call [calls + k] is the
    first to succeed. *)
Lemma retryLoop_success (maxRetries initialDelay : number) (value : T)
    (k calls fuel : nat) (lastError : option E) (slept : list number) :
  (forall j, calls <= j <= calls + k -> lt (index j) maxRetries = true) ->
  (forall j, calls <= j < calls + k -> exists e, fn j = inl e) ->
  fn (calls + k) = inr value ->
  k < fuel ->
  retryLoop fuel maxRetries initialDelay (index calls) calls lastError slept
  = Some (inr value, slept ++ waits maxRetries initialDelay calls k).
Proof.
  revert calls fuel lastError slept.
  induction k as [| k IH]; intros calls fuel lastError slept Hlt Hfail Hok Hfuel;
    (destruct fuel as [| fuel]; [lia |]); cbn [Retry.retryLoop].
  - rewrite Hlt by lia. rewrite Nat.add_0_r in Hok. rewrite Hok.
    unfold Retry.waits. simpl. rewrite app_nil_r. reflexivity.
  - rewrite Hlt by lia.
    destruct (Hfail calls ltac:(lia)) as [e ->].
    change (incr (index calls)) with (index (S calls)).
    rewrite IH.
    + rewrite slept_cons. reflexivity.
    + intros j Hj. apply Hlt. lia.
    + intros j Hj. apply Hfail. lia.
    + replace (S calls + k) with (calls + S k) by lia. exact Hok.
    + lia.
Qed.

(** The loop after [calls] failed calls, when the next [n] calls fail
    and the test [i < maxRetries] then ends the loop. *)
Lemma retryLoop_failure (maxRetries initialDelay : number) (err : nat -> E)
    (n calls fuel : nat) (lastError : option E) (slept : list number) :
  (forall j, calls <= j < calls + n -> lt (index j) maxRetries = true) ->
  lt (index (calls + n)) maxRetries = false ->
  (forall j, calls <= j < calls + n -> fn j = inl (err j)) ->
  n < fuel ->
  retryLoop fuel maxRetries initialDelay (index calls) calls lastError slept
  = Some (inl (match n with O => lastError | S n' => Some (err (calls + n')) end),
          slept ++ waits maxRetries initialDelay calls n).
Proof.
  revert calls fuel lastError slept.
  induction n as [| n IH]; intros calls fuel lastError slept Hlt Hend Hfail Hfuel;
    (destruct fuel as [| fuel]; [lia |]); cbn [Retry.retryLoop].
  - rewrite Nat.add_0_r in Hend. rewrite Hend.
    unfold Retry.waits. simpl. rewrite app_nil_r. reflexivity.
  - rewrite Hlt by lia. rewrite Hfail by lia.
    change (incr (index calls)) with (index (S calls)).
    rewrite IH.
    + rewrite slept_cons. f_equal. f_equal. f_equal.
      destruct n as [| n]; [rewrite Nat.add_0_r; reflexivity |].
      f_equal. f_equal. lia.
    + intros j Hj. apply Hlt. lia.
    + replace (S calls + n) with (calls + S n) by lia. exact Hend.
    + intros j Hj. apply Hfail. lia.
    + lia.
Qed.

(** Every way the loop can end. *)
Lemma retryLoop_ends (maxRetries initialDelay : number) (fuel calls : nat)
    (lastError : option E) (slept : list number)
    (outcome : option E + T) (slept' : list number) :
  retryLoop fuel maxRetries initialDelay (index calls) calls lastError slept
  = Some (outcome, slept') ->
  exists k,
    k < fuel
    /\ slept' = slept ++ waits maxRetries initialDelay calls k
    /\ (forall j, calls <= j < calls + k ->
          lt (index j) maxRetries = true /\ exists e, fn j = inl e)
    /\ match outcome with
       | inr value =>
           lt (index (calls + k)) maxRetries = true /\ fn (calls + k) = inr value
       | inl thrown =>
           lt (index (calls + k)) maxRetries = false
           /\ match k with
              | O => thrown = lastError
              | S k' => exists e, fn (calls + k') = inl e /\ thrown = Some e
              end
       end.
Proof.
  revert calls lastError slept.
  induction fuel as [| fuel IH]; intros calls lastError slept H; [discriminate |].
  cbn [Retry.retryLoop] in H.
  destruct (lt (index calls) maxRetries) eqn:Hlt.
  - destruct (fn calls) as [error | value] eqn:Hfn.
    + change (incr (index calls)) with (index (S calls)) in H.
      apply IH in H as (k & Hk & Hslept & Hfail & Hout).
      exists (S k). split; [lia |]. split; [| split].
      * rewrite Hslept, slept_cons. reflexivity.
      * intros j Hj. destruct (Nat.eq_dec j calls) as [-> | Hne].
        -- split; [exact Hlt | eauto].
        -- apply Hfail. lia.
      * replace (calls + S k) with (S calls + k) by lia.
        destruct outcome as [thrown | value]; [| exact Hout].
        destruct Hout as [Hend Hthrown]. split; [exact Hend |].
        destruct k as [| k'].
        -- exists error. rewrite Nat.add_0_r. split; [exact Hfn | exact Hthrown].
        -- replace (calls + S k') with (S calls + k') by lia. exact Hthrown.
    + injection H as <- <-. exists 0. rewrite Nat.add_0_r.
      split; [lia |]. split; [| split].
      * unfold Retry.waits. simpl. rewrite app_nil_r. reflexivity.
      * intros j Hj. lia.
      * split; [exact Hlt | exact Hfn].
  - injection H as <- <-. exists 0. rewrite Nat.add_0_r.
    split; [lia |]. split; [| split].
    + unfold Retry.waits. simpl. rewrite app_nil_r. reflexivity.
    + intros j Hj. lia.
    + split; [exact Hlt | reflexivity].
Qed.

(** X1.  Whatever the arithmetic of numbers is: when call number [k] of
    [fn] (from 0) is the first that succeeds and the test
    [i < maxRetries] lets the loop reach it, retryWithBackoff returns
    the value of that call, and the delays it has handed to setTimeout
    are [initialDelay * Math.pow(2, i)] for the failed calls [i] that
    pass the test [i < maxRetries - 1], in the order of the calls.
    [k + 1] iterations are enough. *)
Theorem retryWithBackoff_first_success (maxRetries initialDelay : number)
    (k : nat) (value : T) (fuel : nat) :
  (forall j, j <= k -> lt (index j) maxRetries = true) ->
  (forall j, j < k -> exists e, fn j = inl e) ->
  fn k = inr value ->
  k < fuel ->
  retryWithBackoff fuel maxRetries initialDelay
  = Some (inr value, waits maxRetries initialDelay 0 k).
Proof.
  intros Hlt Hfail Hok Hfuel. unfold Retry.retryWithBackoff.
  change zero with (index 0).
  rewrite (retryLoop_success maxRetries initialDelay value k 0 fuel None []).
  - reflexivity.
  - intros j Hj. apply Hlt. lia.
  - intros j Hj. apply Hfail. lia.
  - exact Hok.
  - exact Hfuel.
Qed.

(** X2.  Whatever the arithmetic of numbers is: when the test
    [i < maxRetries] holds in the first [n] iterations and fails in the
    next, and the [n] calls of [fn] all fail, retryWithBackoff throws
    the error of the last call, or [undefined] when [n] is 0 and [fn]
    was never called; the delays handed to setTimeout are
    [initialDelay * Math.pow(2, i)] for the calls [i] that pass the test
    [i < maxRetries - 1], and when the last call does not pass it,
    nothing is waited for after the last failure.  [n + 1] iterations
    are enough. *)
Theorem retryWithBackoff_exhausted (maxRetries initialDelay : number)
    (err : nat -> E) (n fuel : nat) :
  (forall j, j < n -> lt (index j) maxRetries = true) ->
  lt (index n) maxRetries = false ->
  (forall j, j < n -> fn j = inl (err j)) ->
  n < fuel ->
  retryWithBackoff fuel maxRetries initialDelay
  = Some (inl (match n with O => None | S n' => Some (err n') end),
          waits maxRetries initialDelay 0 n)
  /\ (lt (index (n - 1)) (minusOne maxRetries) = false ->
      waits maxRetries initialDelay 0 n = waits maxRetries initialDelay 0 (n - 1)).
Proof.
  intros Hlt Hend Hfail Hfuel. split.
  - unfold Retry.retryWithBackoff. change zero with (index 0).
    rewrite (retryLoop_failure maxRetries initialDelay err n 0 fuel None []).
    + reflexivity.
    + intros j Hj. apply Hlt. lia.
    + exact Hend.
    + intros j Hj. apply Hfail. lia.
    + exact Hfuel.
  - intros Hlast. destruct n as [| n]; [reflexivity |].
    replace (S n - 1) with n in * by lia.
    unfold Retry.waits. rewrite seq_S, List.filter_app. cbn [List.filter].
    change (0 + n) with n. rewrite Hlast, app_nil_r. reflexivity.
Qed.

(** X3.  Whatever the arithmetic of numbers is and whatever [fn] does:
    when retryWithBackoff ends, some call number [k] ends it.  Every
    call before it failed while the test [i < maxRetries] held, and the
    delays handed to setTimeout are those of these failed calls.  A
    value returned is the value of call [k], made while the test held;
    something is thrown only when the test fails at [k], and it is the
    error of call [k - 1], or [undefined] when [k] is 0. *)
Theorem retryWithBackoff_ends (maxRetries initialDelay : number) (fuel : nat)
    (outcome : option E + T) (slept : list number) :
  retryWithBackoff fuel maxRetries initialDelay = Some (outcome, slept) ->
  exists k,
    k < fuel
    /\ slept = waits maxRetries initialDelay 0 k
    /\ (forall j, j < k -> lt (index j) maxRetries = true /\ exists e, fn j = inl e)
    /\ match outcome with
       | inr value => lt (index k) maxRetries = true /\ fn k = inr value
       | inl thrown =>
           lt (index k) maxRetries = false
           /\ match k with
              | O => thrown = None
              | S k' => exists e, fn k' = inl e /\ thrown = Some e
              end
       end.
Proof.
  unfold Retry.retryWithBackoff. change zero with (index 0). intros H.
  apply retryLoop_ends in H as (k & Hk & Hslept & Hfail & Hout).
  exists k. split; [exact Hk |]. split; [exact Hslept |]. split.
  - intros j Hj. apply Hfail. lia.
  - exact Hout.
Qed.

End RetryFacts.

(* ------------------------------------------------------------------ *)
(** ** The chunker, again *)

Section ChunkerFacts.

Lemma flush_nonempty (currentChunk : jsstring) :
  Forall (fun chunk => chunk <> []) (flush currentChunk).
Proof.
  unfold flush. destruct currentChunk; simpl; repeat constructor. discriminate.
Qed.

Lemma pack_nonempty (sentences : list jsstring) (currentChunk : jsstring) :
  Forall (fun chunk => chunk <> []) (pack currentChunk sentences).
Proof.
  revert currentChunk.
  induction sentences as [| sentence rest IH]; intros currentChunk; simpl.
  - apply flush_nonempty.
  - destruct (strlen (currentChunk ++ sentence) <=? maxChunkSize); [apply IH |].
    apply Forall_app; split; [apply flush_nonempty | apply IH].
Qed.

(** The loop cuts the sentences into runs: from a chunk under
    construction that holds the sentences [held], it yields the
    concatenations of consecutive runs of [held ++ sentences]. *)
Lemma pack_runs (sentences held : list jsstring) :
  exists runs : list (list jsstring),
    Forall (fun run => run <> []) runs
    /\ concat runs = held ++ sentences
    /\ pack (concat held) sentences = List.filter truthy (List.map (@concat N) runs).
Proof.
  revert held. induction sentences as [| sentence rest IH]; intros held.
  - destruct held as [| s held].
    + exists []. split; [constructor | split; reflexivity].
    + exists [s :: held]. split; [| split].
      * constructor; [discriminate | constructor].
      * simpl. rewrite !app_nil_r. reflexivity.
      * reflexivity.
  - cbn [pack]. destruct (strlen (concat held ++ sentence) <=? maxChunkSize).
    + destruct (IH (held ++ [sentence])) as (runs & Hne & Hcat & Hpack).
      exists runs. split; [exact Hne | split].
      * rewrite Hcat, <- app_assoc. reflexivity.
      * rewrite <- Hpack, concat_app. simpl. rewrite app_nil_r. reflexivity.
    + destruct (IH [sentence]) as (runs & Hne & Hcat & Hpack).
      simpl in Hpack. rewrite app_nil_r in Hpack.
      destruct held as [| s held].
      * exists runs. split; [exact Hne | split; [exact Hcat | exact Hpack]].
      * exists ((s :: held) :: runs). split; [| split].
        -- constructor; [discriminate | exact Hne].
        -- simpl. rewrite Hcat. reflexivity.
        -- rewrite Hpack. unfold flush. cbn [List.map List.filter].
           destruct (truthy (concat (s :: held))); reflexivity.
Qed.

(** X4.  The chunks hold the sentences, whole and in order: the list of
    sentences can be cut into runs of consecutive sentences, none of
    them empty, such that the chunks are, in order, the runs put
    together, one chunk for each run that holds any text.  So, put end
    to end, the chunks are the sentences put end to end; no chunk is
    empty; and a chunk is longer than 500 code units only when it is one
    of the sentences. *)
Theorem chunks_pack_sentences (cleanText : jsstring) :
  (exists runs : list (list jsstring),
     Forall (fun run => run <> []) runs
     /\ concat runs = sentencesOf cleanText
     /\ chunksOf cleanText = List.filter truthy (List.map (@concat N) runs))
  /\ concat (chunksOf cleanText) = concat (sentencesOf cleanText)
  /\ Forall (fun chunk => chunk <> []) (chunksOf cleanText)
  /\ Forall (fun chunk => strlen chunk <= 500 \/ In chunk (sentencesOf cleanText))
            (chunksOf cleanText).
Proof.
  unfold chunksOf. split; [apply (pack_runs (sentencesOf cleanText) []) |].
  repeat split.
  - apply pack_concat.
  - apply pack_nonempty.
  - apply pack_bounded; [left; simpl; unfold maxChunkSize; lia | auto].
Qed.

(** X5.  When no sentence has more than 500 code units, no chunk
    has. *)
Theorem chunks_within_limit (cleanText : jsstring) :
  Forall (fun sentence => strlen sentence <= 500) (sentencesOf cleanText) ->
  Forall (fun chunk => strlen chunk <= 500) (chunksOf cleanText).
Proof.
  intros Hsentences.
  pose proof (pack_bounded (sentencesOf cleanText) (sentencesOf cleanText) [])
    as H.
  eapply Forall_impl; [apply H; [left; simpl; unfold maxChunkSize; lia | auto] |].
  intros chunk [Hle | Hin]; [exact Hle |].
  rewrite List.Forall_forall in Hsentences. apply Hsentences, Hin.
Qed.

(** The first chunk begins with the chunk under construction. *)
Lemma pack_head (sentences : list jsstring) (currentChunk chunk : jsstring)
    (chunks : list jsstring) :
  pack currentChunk sentences = chunk :: chunks ->
  exists more, chunk = currentChunk ++ more.
Proof.
  revert currentChunk.
  induction sentences as [| sentence rest IH]; intros currentChunk; simpl.
  - unfold flush. destruct (truthy currentChunk); [| discriminate].
    intros [= <- _]. exists []. rewrite app_nil_r. reflexivity.
  - destruct (strlen (currentChunk ++ sentence) <=? maxChunkSize).
    + intros H. destruct (IH _ H) as (more & ->).
      exists (sentence ++ more). rewrite app_assoc. reflexivity.
    + unfold flush. destruct currentChunk as [| c cur]; simpl.
      * intros _. exists chunk. reflexivity.
      * intros [= <- _]. exists []. rewrite app_nil_r. reflexivity.
Qed.

Lemma pack_greedy (sentences : list jsstring) (currentChunk : jsstring)
    (i : nat) (a b : jsstring) :
  pack currentChunk sentences !! i = Some a ->
  pack currentChunk sentences !! S i = Some b ->
  maxChunkSize < strlen (a ++ b).
Proof.
  revert currentChunk i.
  induction sentences as [| sentence rest IH]; intros currentChunk i; simpl.
  - unfold flush. destruct (truthy currentChunk); simpl; discriminate.
  - destruct (strlen (currentChunk ++ sentence) <=? maxChunkSize) eqn:Hfit;
      [apply IH |].
    apply Nat.leb_gt in Hfit.
    unfold flush. destruct currentChunk as [| c cur]; simpl; [apply IH |].
    destruct i as [| i]; simpl; [| apply IH].
    intros [= <-] Hb.
    destruct (pack sentence rest) as [| chunk chunks] eqn:Hpack; [discriminate |].
    simpl in Hb. injection Hb as ->.
    destruct (pack_head _ _ _ _ Hpack) as (more & ->).
    unfold strlen in *. simpl in *. rewrite !length_app in *. lia.
Qed.

(** X6.  Packing is greedy: two neighbouring chunks never fit together
    in 500 code units. *)
Theorem chunks_greedy (cleanText : jsstring) (i : nat) (a b : jsstring) :
  chunksOf cleanText !! i = Some a ->
  chunksOf cleanText !! S i = Some b ->
  500 < strlen a + strlen b.
Proof.
  intros Ha Hb.
  pose proof (pack_greedy _ _ _ _ _ Ha Hb) as H.
  unfold strlen, maxChunkSize in *. rewrite length_app in H. exact H.
Qed.

(** The matches of a pattern, put end to end, are a subsequence of the
    text. *)
Lemma matches_sublist (r : regex) (s : jsstring) (prev : option N) (skip : nat) :
  concat (matches_from r prev s skip) `sublist_of` drop skip s.
Proof.
  revert prev skip; induction s as [| c s IH]; intros prev skip.
  - simpl. destruct skip; [destruct (matchAt r prev [])|]; simpl; constructor.
  - cbn [matches_from]. destruct skip as [| skip]; [| apply IH].
    destruct (matchAt r prev (c :: s)) as [[| n] |].
    + simpl. apply sublist_cons. apply (IH (Some c) 0).
    + change (concat (firstn (S n) (c :: s) :: matches_from r (Some c) s n))
        with (firstn (S n) (c :: s) ++ concat (matches_from r (Some c) s n)).
      rewrite <- (take_drop (S n) (c :: s)) at 2.
      apply sublist_app; [reflexivity |]. apply IH.
    + simpl. apply sublist_cons. apply (IH (Some c) 0).
Qed.

(** X7.  Chunking adds nothing and reorders nothing: the chunks put end
    to end are a subsequence of the sanitized text. *)
Theorem chunks_sublist (cleanText : jsstring) :
  concat (chunksOf cleanText) `sublist_of` cleanText.
Proof.
  unfold chunksOf. rewrite pack_concat. simpl. unfold sentencesOf.
  pose proof (matches_sublist reSentence cleanText None 0) as H.
  fold (matchAll reSentence cleanText) in H.
  destruct (matchAll reSentence cleanText) as [| sentence sentences].
  - simpl. rewrite app_nil_r. reflexivity.
  - exact H.
Qed.

(** After [skip] code units of a match the search goes on as from a
    fresh start; what comes before does not matter to the sentence
    pattern. *)
Lemma sentence_matches_skip (s : jsstring) (skip : nat) (prev prev' : option N) :
  skip <= length s ->
  matches_from reSentence prev s skip
  = matches_from reSentence prev' (drop skip s) 0.
Proof.
  revert skip prev prev'; induction s as [| c s IH]; intros skip prev prev' Hlen.
  - simpl in Hlen. assert (skip = 0) as -> by lia. reflexivity.
  - destruct skip as [| skip].
    + simpl drop. cbn [matches_from]. rewrite !matchAt_sentence_cons. reflexivity.
    + cbn [matches_from]. simpl drop. apply IH. simpl in Hlen. lia.
Qed.

Lemma dropWhile_nil_last (p : N -> bool) (s : jsstring) (c x : N) :
  dropWhile p s = [] -> p c = true -> last (c :: s) = Some x -> p x = true.
Proof.
  revert c; induction s as [| d s IH]; intros c Hs Hc; simpl.
  - intros [= <-]. exact Hc.
  - simpl in Hs. destruct (p d) eqn:Hd; [| discriminate].
    intros H. apply (IH d Hs Hd). exact H.
Qed.

Lemma sentences_cover (n : nat) (s : jsstring) (prev : option N) :
  length s <= n ->
  s = [] \/ (startsSentence s /\ terminated s) ->
  concat (matches_from reSentence prev s 0) = s.
Proof.
  revert s prev; induction n as [| n IH]; intros s prev Hlen Hs.
  - destruct s; [reflexivity | simpl in Hlen; lia].
  - destruct Hs as [-> | [(c & s' & -> & Hc) (x & Hlast & Hx)]]; [reflexivity |].
    cbn [matches_from]. rewrite matchAt_sentence_cons, Hc.
    destruct (dropWhile (fun d => negb (isTerminator d)) s') as [| d r] eqn:Hd.
    { pose proof (dropWhile_nil_last _ _ c x Hd) as H. cbv beta in H.
      rewrite Hc in H. specialize (H eq_refl Hlast).
      rewrite Hx in H. discriminate. }
    pose proof (takeWhile_dropWhile (fun d => negb (isTerminator d)) s') as Hs'.
    rewrite Hd in Hs'.
    pose proof (takeWhile_dropWhile isTerminator r) as Hr.
    set (run1 := takeWhile (fun d => negb (isTerminator d)) s') in *.
    set (run2 := takeWhile isTerminator r) in *.
    set (rest := dropWhile isTerminator r) in *.
    assert (Hsplit : s' = (run1 ++ d :: run2) ++ rest).
    { rewrite <- Hs' at 1. rewrite <- Hr at 1. rewrite <- app_assoc. reflexivity. }
    pose proof (f_equal length Hsplit) as Hlen'. rewrite length_app in Hlen'.
    replace (length (c :: s') - length rest) with (S (length (run1 ++ d :: run2)))
      by (cbn [length]; lia).
    rewrite (sentence_matches_skip s' _ (Some c) None) by lia.
    assert (Hdrop : drop (length (run1 ++ d :: run2)) s' = rest)
      by (rewrite Hsplit at 1; apply drop_app_length).
    rewrite Hdrop.
    change (concat (?a :: ?l)) with (a ++ concat l).
    rewrite (IH rest None).
    + rewrite <- Hdrop. change (drop ?k s') with (drop (S k) (c :: s')).
      apply take_drop.
    + simpl in Hlen. lia.
    + destruct rest as [| e rest'] eqn:Hrest; [left; reflexivity | right]. split.
      * exists e, rest'. split; [reflexivity |].
        unfold rest in Hrest. apply dropWhile_head in Hrest. exact Hrest.
      * exists x. split; [| exact Hx].
        rewrite Hsplit in Hlast.
        change (c :: (run1 ++ d :: run2) ++ e :: rest')
          with ((c :: run1 ++ d :: run2) ++ e :: rest') in Hlast.
        rewrite last_app in Hlast. destruct (last (e :: rest')) eqn:Hl; [exact Hlast |].
        apply last_None in Hl. discriminate.
Qed.

(** X8.  A sanitized text that begins with a code unit other than a
    terminator and ends with a terminator is covered by its chunks: put
    end to end they are the text. *)
Theorem chunks_cover_terminated_text (cleanText : jsstring) :
  startsSentence cleanText -> terminated cleanText ->
  concat (chunksOf cleanText) = cleanText.
Proof.
  intros Hstart Hend. unfold chunksOf. rewrite pack_concat. simpl.
  unfold sentencesOf.
  pose proof (sentences_cover (length cleanText) cleanText None (Nat.le_refl _)
                (or_intror (conj Hstart Hend))) as H.
  fold (matchAll reSentence cleanText) in H.
  destruct (matchAll reSentence cleanText); [simpl; apply app_nil_r | exact H].
Qed.

End ChunkerFacts.

(* ------------------------------------------------------------------ *)
(** ** The sanitizer, again *)

Section DeadPatternFacts.
Context {R : Type}.

Lemma star_loop_cont_none (step : option N -> jsstring -> @cont R -> option R)
    (k : @cont R) :
  (forall prev s (k' : @cont R), (forall p s', k' p s' = None) -> step prev s k' = None) ->
  (forall p s', k p s' = None) ->
  forall fuel prev s, star_loop step fuel prev s k = None.
Proof.
  intros Hstep Hk fuel; induction fuel as [| fuel IH]; intros prev s; simpl.
  - apply Hk.
  - rewrite Hstep; [apply Hk |].
    intros p s'. destruct (length s' <? length s); [apply IH | reflexivity].
Qed.

(** A pattern followed by something that always fails, fails. *)
Lemma m_cont_none (r : regex) (prev : option N) (s : jsstring) (k : @cont R) :
  (forall p s', k p s' = None) -> m r prev s k = None.
Proof.
  revert prev s k.
  induction r as [| p | a IHa b IHb | a IHa b IHb | a IHa | |];
    intros prev s k Hk; simpl.
  - apply Hk.
  - destruct s as [| c s]; [reflexivity |]. destruct (p c); [apply Hk | reflexivity].
  - apply IHa. intros p s'. apply IHb, Hk.
  - rewrite IHa by exact Hk. apply IHb, Hk.
  - apply star_loop_cont_none; [intros; apply IHa; assumption | exact Hk].
  - destruct prev; [reflexivity | apply Hk].
  - destruct (xorb _ _); [apply Hk | reflexivity].
Qed.

Lemma star_loop_after_unit (step : option N -> jsstring -> @cont R -> option R)
    (k : @cont R) :
  (forall c s (k' : @cont R),
     (forall c' s', k' (Some c') s' = None) -> step (Some c) s k' = None) ->
  (forall c s', k (Some c) s' = None) ->
  forall fuel c s, star_loop step fuel (Some c) s k = None.
Proof.
  intros Hstep Hk fuel; induction fuel as [| fuel IH]; intros c s; simpl.
  - apply Hk.
  - rewrite Hstep; [apply Hk |].
    intros c' s'. destruct (length s' <? length s); [apply IH | reflexivity].
Qed.

(** Once a code unit has been taken, what follows a pattern is entered
    after a code unit as well. *)
Lemma m_after_unit (r : regex) (c : N) (s : jsstring) (k : @cont R) :
  (forall c' s', k (Some c') s' = None) -> m r (Some c) s k = None.
Proof.
  revert c s k.
  induction r as [| p | a IHa b IHb | a IHa b IHb | a IHa | |];
    intros c s k Hk; simpl.
  - apply Hk.
  - destruct s as [| d s]; [reflexivity |]. destruct (p d); [apply Hk | reflexivity].
  - apply IHa. intros c' s'. apply IHb, Hk.
  - rewrite IHa by exact Hk. apply IHb, Hk.
  - apply star_loop_after_unit; [intros; apply IHa; assumption | exact Hk].
  - reflexivity.
  - destruct (xorb _ _); [apply Hk | reflexivity].
Qed.

Lemma m_consuming (r : regex) (prev : option N) (s : jsstring) (k : @cont R) :
  consuming r = true ->
  (forall c' s', k (Some c') s' = None) -> m r prev s k = None.
Proof.
  revert prev s k.
  induction r as [| p | a IHa b IHb | a IHa b IHb | a IHa | |];
    intros prev s k Hr Hk; simpl in *; try discriminate.
  - destruct s as [| d s]; [reflexivity |]. destruct (p d); [apply Hk | reflexivity].
  - destruct (consuming a) eqn:Ha.
    + apply IHa; [reflexivity |]. intros c' s'. apply m_after_unit, Hk.
    + apply m_cont_none. intros p s'. apply IHb; assumption.
  - apply andb_true_iff in Hr as [Ha Hb].
    rewrite IHa by assumption. apply IHb; assumption.
Qed.

Lemma m_dead_after_unit (r : regex) (c : N) (s : jsstring) (k : @cont R) :
  dead r true = true -> m r (Some c) s k = None.
Proof.
  revert c s k.
  induction r as [| p | a IHa b IHb | a IHa b IHb | a IHa | |];
    intros c s k Hr; simpl in *; try discriminate.
  - destruct (dead a true) eqn:Ha.
    + apply IHa. reflexivity.
    + apply m_after_unit. intros c' s'. apply IHb. exact Hr.
  - apply andb_true_iff in Hr as [Ha Hb]. rewrite IHa by assumption. apply IHb, Hb.
  - reflexivity.
Qed.

Lemma m_dead (r : regex) (prev : option N) (s : jsstring) (k : @cont R) :
  dead r false = true -> m r prev s k = None.
Proof.
  revert prev s k.
  induction r as [| p | a IHa b IHb | a IHa b IHb | a IHa | |];
    intros prev s k Hr; simpl in *; try discriminate.
  - destruct (dead a false) eqn:Ha.
    + apply IHa. reflexivity.
    + simpl in Hr. destruct (consuming a) eqn:Hc.
      * apply m_consuming; [exact Hc |]. intros c' s'. apply m_dead_after_unit, Hr.
      * apply m_cont_none. intros p s'. apply IHb, Hr.
  - apply andb_true_iff in Hr as [Ha Hb]. rewrite IHa by assumption. apply IHb, Hb.
Qed.

End DeadPatternFacts.

Lemma search_from_dead (r : regex) (s : jsstring) (prev : option N) :
  dead r false = true -> search_from r prev s = false.
Proof.
  intros Hr. revert prev; induction s as [| c s IH]; intros prev; simpl;
    unfold matchAt; rewrite m_dead by exact Hr; [reflexivity | apply IH].
Qed.

(** X9.  The pattern written for the [utm_] parameters,
    [/utm_[a-z_]+=\[^\s&]*/gi], has [^] after code units it must take:
    it matches in no text, and the replacement that uses it leaves every
    text as it is. *)
Theorem utm_pattern_never_matches (rep text : jsstring) :
  test reUtm text = false /\ replaceAll reUtm rep text = text.
Proof.
  assert (H : test reUtm text = false) by (apply search_from_dead; reflexivity).
  split; [exact H | apply replaceAll_absent, H].
Qed.

Section SanitizerShape.

Variable cheerioText : jsstring -> option jsstring.

Abbreviation stripHtml := (Sanitizer.stripHtml cheerioText).

Lemma spaced_only_spaces (s : jsstring) (b : bool) (c : N) :
  spacedFrom b s = true -> In c s -> isWhiteSpace c = true -> c = 32%N.
Proof.
  revert b; induction s as [| d s IH]; intros b; simpl; [tauto |].
  destruct (isWhiteSpace d) eqn:Hd.
  - rewrite !andb_true_iff, N.eqb_eq. intros [[-> _] H] [<- | Hin] Hc;
      [reflexivity | eapply IH; eauto].
  - intros H [<- | Hin] Hc; [congruence | eapply IH; eauto].
Qed.

Lemma spaced_no_double_space (s : jsstring) (b : bool) (i : nat) :
  spacedFrom b s = true ->
  s !! i = Some 32%N -> s !! S i = Some 32%N -> False.
Proof.
  revert b i; induction s as [| d s IH]; intros b i; simpl; [discriminate |].
  destruct i as [| i]; simpl.
  - intros H [= ->]. destruct s as [| e s]; simpl; [discriminate |].
    intros [= ->]. simpl in H. rewrite andb_false_r, ?andb_false_l in H.
    destruct b; simpl in H; discriminate.
  - destruct (isWhiteSpace d).
    + rewrite !andb_true_iff. intros [_ H]. apply (IH _ _ H).
    + apply IH.
Qed.

Lemma trim_head (s : jsstring) (c : N) :
  head (trim s) = Some c -> isWhiteSpace c = false.
Proof.
  unfold trim, trimStart.
  destruct (dropWhile isWhiteSpace s) as [| d u] eqn:Hu; [discriminate |].
  apply dropWhile_head in Hu. rewrite trimEnd_cons by exact Hu.
  intros [= <-]. exact Hu.
Qed.

Lemma trimEnd_last (s : jsstring) (c : N) :
  last (trimEnd s) = Some c -> isWhiteSpace c = false.
Proof.
  unfold trimEnd.
  destruct (dropWhile isWhiteSpace (rev s)) as [| d u] eqn:Hu; [discriminate |].
  apply dropWhile_head in Hu. simpl. rewrite last_snoc.
  intros [= <-]. exact Hu.
Qed.

(** X10.  When the parser does not throw, the sanitized text is empty or
    has at least 10 code units; it neither begins nor ends with white
    space, its only white space is the space, and no two spaces are
    adjacent. *)
Theorem sanitized_normal_form (html extracted : jsstring) :
  cheerioText html = Some extracted ->
  stripHtml html = []
  \/ (10 <= strlen (stripHtml html)
      /\ (forall c, head (stripHtml html) = Some c -> isWhiteSpace c = false)
      /\ (forall c, last (stripHtml html) = Some c -> isWhiteSpace c = false)
      /\ (forall c, In c (stripHtml html) -> isWhiteSpace c = true -> c = 32%N)
      /\ (forall i, stripHtml html !! i = Some 32%N ->
                    stripHtml html !! S i = Some 32%N -> False)).
Proof.
  intros Hparse. unfold Sanitizer.stripHtml. rewrite Hparse.
  unfold cleanText. cbv zeta.
  set (t := removeNoise (orElse (beforePipe extracted) extracted)).
  destruct (strlen (cleanWhiteSpace t) <? 10) eqn:Hlen; [left; reflexivity | right].
  apply Nat.ltb_ge in Hlen. split; [exact Hlen |].
  rewrite cleanWhiteSpace_squeeze.
  assert (Hspaced : spacedFrom false (trim (squeeze false t)) = true)
    by apply spaced_trim, spaced_squeeze.
  repeat split.
  - apply trim_head.
  - apply trimEnd_last.
  - intros c. apply (spaced_only_spaces _ _ _ Hspaced).
  - intros i. apply (spaced_no_double_space _ _ _ Hspaced).
Qed.

Lemma In_replace_from (r : regex) (c : N) (s : jsstring) (prev : option N)
    (skip : nat) :
  In c (replace_from r [] prev s skip) -> In c s.
Proof.
  revert prev skip; induction s as [| d s IH]; intros prev skip.
  - simpl. destruct skip; [destruct (matchAt r prev []) |]; simpl; tauto.
  - cbn [replace_from]. destruct skip as [| skip].
    + destruct (matchAt r prev (d :: s)) as [[| n] |]; simpl.
      * intros [<- | H]; [auto | right; eapply IH, H].
      * intros H; right; eapply IH, H.
      * intros [<- | H]; [auto | right; eapply IH, H].
    + intros H; right; eapply IH, H.
Qed.

Lemma In_removeNoise (c : N) (s : jsstring) : In c (removeNoise s) -> In c s.
Proof.
  unfold removeNoise. generalize noisePatterns as patterns. intros patterns.
  revert s; induction patterns as [| r patterns IH]; intros s; simpl; [auto |].
  intros H. apply IH in H. eapply In_replace_from, H.
Qed.

(** X11.  When the parser does not throw and the extracted text does
    not begin with a pipe, nothing from the first pipe on survives: every
    code unit of the sanitized text comes from before the first pipe or
    is a space, and the sanitized text has no pipe. *)
Theorem sanitized_cut_at_pipe (html extracted : jsstring) :
  cheerioText html = Some extracted ->
  head extracted <> Some pipe ->
  (forall c, In c (stripHtml html) -> In c (beforePipe extracted) \/ c = 32%N)
  /\ ~ In pipe (stripHtml html).
Proof.
  intros Hparse Hhead.
  assert (Hcut : orElse (beforePipe extracted) extracted = beforePipe extracted).
  { unfold orElse. destruct (beforePipe extracted) eqn:Hb; [| reflexivity].
    destruct (beforePipe_nil _ Hb) as [-> | (r & ->)]; [reflexivity |].
    exfalso; apply Hhead; reflexivity. }
  assert (Hin : forall c, In c (stripHtml html) ->
                          In c (beforePipe extracted) \/ c = 32%N).
  { intros c. unfold Sanitizer.stripHtml. rewrite Hparse.
    unfold cleanText. cbv zeta. rewrite Hcut.
    destruct (strlen _ <? 10); [simpl; tauto |].
    rewrite cleanWhiteSpace_squeeze. intros H.
    apply In_trim, In_squeeze in H. destruct H as [H | H]; [left | right; exact H].
    apply In_removeNoise, H. }
  split; [exact Hin |].
  intros Hpipe. destruct (Hin _ Hpipe) as [H | H]; [| discriminate].
  exact (beforePipe_no_pipe _ H).
Qed.

End SanitizerShape.

(* ------------------------------------------------------------------ *)
(** ** What translateToTurkish sends and returns *)

Section RequestFacts.
Context {A B : Type}.
Variable P : provider -> jsstring -> Prop.

Lemma allCalls_bind (c : Prog A) (f : A -> Prog B) :
  allCalls P c -> (forall a, allCalls P (f a)) -> allCalls P (bind c f).
Proof.
  intros Hc Hf; induction Hc as [a | e | p text k Hp _ IH]; simpl; auto.
  - constructor.
  - constructor; auto.
Qed.

Lemma allCalls_try_catch (c : Prog A) (h : exn -> Prog A) :
  allCalls P c -> (forall e, allCalls P (h e)) -> allCalls P (try_catch c h).
Proof.
  intros Hc Hh; induction Hc as [a | e | p text k Hp _ IH]; simpl; auto.
  - constructor.
  - constructor; auto.
Qed.

Lemma allCalls_run (o : Oracle) (c : Prog A) (log : Log) :
  allCalls P c ->
  exists new, (run o log c).2 = log ++ new
              /\ Forall (fun request => P request.1 request.2) new.
Proof.
  intros Hc; revert log; induction Hc as [a | e | p text k Hp _ IH]; intros log; simpl.
  - exists []. rewrite app_nil_r. auto.
  - exists []. rewrite app_nil_r. auto.
  - destruct (IH (o log p text) (log ++ [(p, text)])) as (new & -> & Hnew).
    exists ((p, text) :: new). rewrite <- app_assoc. split; [reflexivity |].
    constructor; [exact Hp | exact Hnew].
Qed.

End RequestFacts.

Lemma allCalls_mapM {A B : Type} (P : provider -> jsstring -> Prop)
    (f : A -> Prog B) (l : list A) :
  (forall x, allCalls P (f x)) -> allCalls P (mapM f l).
Proof.
  intros Hf; induction l as [| x l IH].
  - constructor.
  - rewrite mapM_cons. apply allCalls_bind; auto.
    intros y; apply allCalls_bind; auto. intros; constructor.
Qed.

Section SendFacts.

Variable cheerioText : jsstring -> option jsstring.
Variable toLowerCase : jsstring -> jsstring.

Abbreviation stripHtml := (Sanitizer.stripHtml cheerioText).
Abbreviation translateToTurkish := (Translate.translateToTurkish cheerioText toLowerCase).

Lemma allCalls_attempt (P : provider -> jsstring -> Prop) (p : provider)
    (cleanText : jsstring) :
  P p cleanText ->
  allCalls P (Translate.attempt toLowerCase (Call p cleanText checked) cleanText).
Proof.
  intros Hp. unfold Translate.attempt, mbind, Prog_bind.
  apply allCalls_try_catch; [| intros; constructor].
  simpl. constructor; [exact Hp |].
  intros r. unfold checked. destruct r as [t |]; [| constructor].
  destruct (blank t); simpl; [constructor |].
  destruct (Translate.accepted toLowerCase t cleanText); constructor.
Qed.

Lemma translateBody_allCalls (recur : jsstring -> Prog jsstring) (text : jsstring) :
  (forall chunk, allCalls (fun _ sent => sendable cheerioText sent) (recur chunk)) ->
  allCalls (fun _ sent => sendable cheerioText sent)
           (translateBody cheerioText toLowerCase recur text).
Proof.
  intros Hrecur. unfold translateBody.
  destruct (blank text); [constructor |].
  destruct (blank (stripHtml text)) eqn:Hclean; [constructor |].
  destruct (maxChunkSize <? strlen (stripHtml text)) eqn:Hlen.
  - unfold mbind, Prog_bind. apply allCalls_bind; [| intros; constructor].
    apply allCalls_mapM, Hrecur.
  - apply Nat.ltb_ge in Hlen.
    assert (Hsend : sendable cheerioText (stripHtml text))
      by (repeat split; [exact Hlen | exact Hclean | exists text; reflexivity]).
    unfold mbind, Prog_bind, translateWithGoogle, translateWithLibreTranslate.
    apply allCalls_bind; [apply allCalls_attempt, Hsend |].
    intros [g |]; [constructor |].
    apply allCalls_bind; [apply allCalls_attempt, Hsend |].
    intros [l |]; constructor.
Qed.

Lemma translateToTurkish_allCalls (depth : nat) (text : jsstring) :
  allCalls (fun _ sent => sendable cheerioText sent) (translateToTurkish depth text).
Proof.
  revert text; induction depth as [| depth IH]; intros text;
    rewrite translateToTurkish_unfold;
    (apply allCalls_try_catch; [| intros; constructor]);
    apply translateBody_allCalls.
  - intros; constructor.
  - exact IH.
Qed.

(** X12.  Whatever the input, the stack bound and the replies,
    every text that translateToTurkish sends to a provider is a
    sanitized text, not blank and of at most 500 code units. *)
Theorem translateToTurkish_sends_sanitized (depth : nat) (text : jsstring)
    (o : Oracle) (log : Log) :
  exists new,
    (run o log (translateToTurkish depth text)).2 = log ++ new
    /\ Forall (fun request =>
                 strlen request.2 <= 500
                 /\ blank request.2 = false
                 /\ exists source, request.2 = stripHtml source) new.
Proof.
  destruct (allCalls_run _ o _ log (translateToTurkish_allCalls depth text))
    as (new & Hlog & Hnew).
  exists new. split; [exact Hlog | exact Hnew].
Qed.

Lemma run_mapM_settleAll {A B : Type} (o : Oracle) (f : A -> Prog B)
    (l : list A) (log : Log) :
  (forall x, noThrow (f x)) ->
  exists (values : list B) (log1 : Log),
    settleAll o log (List.map f l) = (List.map inr values, log1)
    /\ run o log (mapM f l) = (inr values, log1).
Proof.
  intros Hf. revert log; induction l as [| x l IH]; intros log.
  - exists [], log. split; reflexivity.
  - rewrite mapM_cons, run_bind. cbn [List.map settleAll].
    destruct (noThrow_run o (f x) log (Hf x)) as (v & log1 & ->).
    rewrite run_bind.
    destruct (IH log1) as (values & log2 & -> & ->).
    exists (v :: values), log2. split; reflexivity.
Qed.

(** X13.  With room on the stack for one more call, a text whose
    sanitized form has more than 500 code units is translated chunk by
    chunk: translateToTurkish is run on the chunks one after the other,
    in order, and the result is their translations joined with one
    space. *)
Theorem long_text_chunkwise (depth : nat) (o : Oracle) (log : Log)
    (text : jsstring) :
  blank text = false ->
  blank (stripHtml text) = false ->
  500 < strlen (stripHtml text) ->
  exists (translations : list jsstring) (log1 : Log),
    settleAll o log (List.map (translateToTurkish depth) (chunksOf (stripHtml text)))
    = (List.map inr translations, log1)
    /\ length translations = length (chunksOf (stripHtml text))
    /\ run o log (translateToTurkish (S depth) text)
       = (inr (join (js " ") translations), log1).
Proof.
  intros Htext Hclean Hlen.
  rewrite (run_long_text cheerioText toLowerCase) by assumption.
  rewrite run_bind.
  destruct (run_mapM_settleAll o (translateToTurkish depth)
              (chunksOf (stripHtml text)) log
              (translateToTurkish_noThrow cheerioText toLowerCase depth))
    as (translations & log1 & Hsettle & ->).
  exists translations, log1. split; [exact Hsettle |]. split; [| reflexivity].
  clear - Hsettle. revert log translations Hsettle.
  induction (chunksOf (stripHtml text)) as [| chunk chunks IH];
    intros log translations; simpl.
  - destruct translations; [reflexivity | discriminate].
  - destruct (run o log (translateToTurkish depth chunk)) as [r log2].
    destruct (settleAll o log2 _) as [rs log3] eqn:Hrest.
    destruct translations as [| t translations]; [discriminate |].
    simpl. intros [= -> Hrs <-]. f_equal. eapply IH. rewrite Hrest, Hrs. reflexivity.
Qed.

(** X14.  For a text whose sanitized form has at most 500 code units,
    the result is the text itself, or its sanitized form, or the reply
    of a provider that is not blank, has more than 10 code units and
    differs from the sanitized form when both are lower-cased. *)
Theorem short_text_result (depth : nat) (o : Oracle) (log : Log)
    (text : jsstring) :
  strlen (stripHtml text) <= 500 ->
  exists (result : jsstring) (log1 : Log),
    run o log (translateToTurkish depth text) = (inr result, log1)
    /\ (result = text
        \/ result = stripHtml text
        \/ (blank result = false
            /\ 10 < strlen result
            /\ toLowerCase result <> toLowerCase (stripHtml text)
            /\ exists p log0, o log0 p (stripHtml text) = Some result)).
Proof.
  intros Hlen.
  destruct (blank text) eqn:Htext.
  { exists text, log. split; [| left; reflexivity].
    rewrite translateToTurkish_unfold. unfold translateBody. rewrite Htext.
    reflexivity. }
  destruct (blank (stripHtml text)) eqn:Hclean.
  { exists text, log. split; [| left; reflexivity].
    rewrite translateToTurkish_unfold. unfold translateBody.
    rewrite Htext, Hclean. reflexivity. }
  rewrite run_short_text by assumption. cbv zeta.
  assert (Hverdict : forall reply t log0 p,
            o log0 p (stripHtml text) = reply ->
            Translate.verdict toLowerCase (stripHtml text) reply = Some t ->
            blank t = false /\ 10 < strlen t
            /\ toLowerCase t <> toLowerCase (stripHtml text)
            /\ exists p log0, o log0 p (stripHtml text) = Some t).
  { intros reply t log0 p Hreply. unfold Translate.verdict.
    destruct reply as [t' |]; [| discriminate].
    destruct (blank t') eqn:Hb; [discriminate |].
    destruct (Translate.accepted toLowerCase t' (stripHtml text)) eqn:Hacc;
      [| discriminate].
    intros [= <-]. apply (accepted_iff cheerioText) in Hacc.
    destruct Hacc as (_ & H10 & Hdiff).
    split; [exact Hb |]. split; [exact H10 |]. split; [exact Hdiff |].
    exists p, log0. exact Hreply. }
  destruct (Translate.verdict toLowerCase (stripHtml text)
              (o log Google (stripHtml text))) as [g |] eqn:Hg.
  - eexists _, _. split; [reflexivity |]. right; right.
    eapply Hverdict; eauto.
  - destruct (Translate.verdict toLowerCase (stripHtml text)
                (o (log ++ [(Google, stripHtml text)]) LibreTranslate (stripHtml text)))
      as [l |] eqn:Hl.
    + eexists _, _. split; [reflexivity |]. right; right.
      eapply Hverdict; eauto.
    + eexists _, _. split; [reflexivity |]. right; left. reflexivity.
Qed.

End SendFacts.

(* ------------------------------------------------------------------ *)
(** ** The endpoint, again *)

Section RouteShape.

Import Route.

Variable cheerioText : jsstring -> option jsstring.
Variable translateWithGoogle : jsstring -> option jsstring.

Abbreviation POST := (Route.POST cheerioText translateWithGoogle).
Abbreviation handle := (Route.handle cheerioText translateWithGoogle).
Abbreviation routeStripHtml := (Route.stripHtml cheerioText).

Lemma cleanWhiteSpace_idempotent (t : jsstring) :
  cleanWhiteSpace (cleanWhiteSpace t) = cleanWhiteSpace t.
Proof.
  rewrite !cleanWhiteSpace_squeeze.
  rewrite (squeeze_spaced (trim (squeeze false t)))
    by apply spaced_trim, spaced_squeeze.
  apply trim_idempotent.
Qed.

(** X15.  stripHtml of the route is idempotent where its result has no
    markup left: when the parser does not throw and returns the result
    as it is, cleaning the result again changes nothing. *)
Theorem route_stripHtml_idempotent (html extracted : jsstring) :
  cheerioText html = Some extracted ->
  markupFree cheerioText (routeStripHtml html) ->
  routeStripHtml (routeStripHtml html) = routeStripHtml html.
Proof.
  unfold markupFree. intros Hparse.
  assert (Hs : routeStripHtml html = cleanWhiteSpace extracted)
    by (unfold Route.stripHtml; rewrite Hparse; reflexivity).
  rewrite Hs. intros Hclean.
  unfold Route.stripHtml at 1. rewrite Hclean.
  apply cleanWhiteSpace_idempotent.
Qed.

Lemma handle_responses (request request1 : Request) (response : Response) :
  handle request = (inr response, request1) ->
  (response = badRequest
   \/ (status response = 200 /\ error response = None
       /\ exists t, translation response = Some t))
  /\ (exists v text, body request = Json v /\ bodyUsed request = false
                     /\ textOf v = inr text)
  /\ bodyUsed request1 = true.
Proof.
  unfold Route.handle, request_json.
  destruct request as [[| | v] used]; simpl; try discriminate.
  - destruct used; discriminate.
  - destruct used; [discriminate |].
    destruct (textOf v) as [e | text] eqn:Htext; [discriminate |].
    assert (Hbody : exists v0 text0, Json v = Json v0 /\ false = false
                                     /\ textOf v0 = inr text0)
      by (exists v, text; auto).
    destruct (invalidText text); [intros [= <- <-]; auto |].
    destruct text; try (intros [= <- <-]; auto).
    destruct (strlen (trim (routeStripHtml s)) =? 0).
    + intros [= <- <-]. split; [right; simpl; eauto | auto].
    + destruct (translateWithGoogle _) as [t |]; [| discriminate].
      destruct (truthy t); [| discriminate].
      intros [= <- <-]. split; [right; simpl; eauto | auto].
Qed.

(** X16.  Every response of POST is the 400 error or a 200 response
    with a translation and no error; it answers a request whose body is
    JSON other than [null], unread until then, and has read the body.
    In every other case POST throws. *)
Theorem POST_responses (request request1 : Request) (response : Response) :
  POST request = (inr response, request1) ->
  (response = badRequest
   \/ (status response = 200 /\ error response = None
       /\ exists t, translation response = Some t))
  /\ (exists v text, body request = Json v /\ bodyUsed request = false
                     /\ textOf v = inr text)
  /\ bodyUsed request1 = true.
Proof.
  unfold Route.POST.
  destruct (handle request) as [[e | response'] request'] eqn:Hh.
  - destruct (handle_throws_body_unreadable _ _ _ _ _ Hh) as (e1 & ->).
    discriminate.
  - intros [= <- <-]. eapply handle_responses, Hh.
Qed.

Lemma invalidText_true_iff (text : jsvalue) :
  invalidText text = true <->
  forall s, text = VString s -> Translate.blank s = true.
Proof.
  split.
  - intros H s ->. destruct (Translate.blank s) eqn:Hb; [reflexivity |].
    assert (invalidText (VString s) = false)
      by (apply invalidText_iff; eauto).
    congruence.
  - intros H. destruct (invalidText text) eqn:Hi; [reflexivity |].
    apply invalidText_iff in Hi. destruct Hi as (s & -> & Hb).
    rewrite (H s eq_refl) in Hb. discriminate.
Qed.

(** X17.  For a request with a JSON body other than [null], POST
    answers 400 "Invalid text provided" exactly when the [text] of the
    body is missing, is not a string, or is a blank string. *)
Theorem POST_bad_request_iff (v text : jsvalue) :
  textOf v = inr text ->
  (POST {| body := Json v; bodyUsed := false |}
   = (inr badRequest, {| body := Json v; bodyUsed := true |})
   <-> forall s, text = VString s -> Translate.blank s = true).
Proof.
  intros Htext. rewrite <- invalidText_true_iff. split.
  - destruct (invalidText text) eqn:Hi; [reflexivity |].
    unfold Route.POST, Route.handle; simpl. rewrite Htext, Hi.
    destruct text; try (apply invalidText_iff in Hi;
                        destruct Hi as (s0 & Hs0 & _); discriminate).
    destruct (strlen (trim (routeStripHtml s)) =? 0); [discriminate |].
    destruct (translateWithGoogle _) as [t |]; [destruct (truthy t) |];
      discriminate.
  - intros Hi. unfold Route.POST, Route.handle; simpl.
    rewrite Htext, Hi. reflexivity.
Qed.

End RouteShape.

(* ------------------------------------------------------------------ *)
(** ** Batches, summaries and replies *)

Section OfflineFacts.

Variable cheerioText : jsstring -> option jsstring.
Variable toLowerCase : jsstring -> jsstring.

Abbreviation stripHtml := (Sanitizer.stripHtml cheerioText).
Abbreviation translateToTurkish := (Translate.translateToTurkish cheerioText toLowerCase).

Lemma run_degenerate (depth : nat) (o : Oracle) (log : Log) (text : jsstring) :
  blank text || blank (stripHtml text) = true ->
  run o log (translateToTurkish depth text) = (inr text, log).
Proof.
  intros H. rewrite translateToTurkish_unfold. unfold translateBody.
  destruct (blank text); [reflexivity |]. simpl in H. rewrite H. reflexivity.
Qed.

Lemma outcome_offline (depth : nat) (o : Oracle) (text : jsstring) :
  (forall log p sent, o log p sent = None) ->
  strlen (stripHtml text) <= 500 ->
  outcome o (translateToTurkish depth text)
  = inr (if blank text || blank (stripHtml text) then text else stripHtml text).
Proof.
  intros Hdown Hlen. unfold outcome.
  destruct (blank text || blank (stripHtml text)) eqn:Hdeg.
  - rewrite run_degenerate by exact Hdeg. reflexivity.
  - apply orb_false_iff in Hdeg as [Htext Hclean].
    rewrite run_short_text by assumption. cbv zeta.
    rewrite !Hdown. reflexivity.
Qed.

(** X18.  When no provider answers, a batch of texts whose sanitized
    forms have at most 500 code units comes back in order, whatever the
    order in which the requests fail: each text as its sanitized form,
    or as it was given when it or its sanitized form is blank. *)
Theorem translateBatch_offline (depth : nat) (o : Oracle) (schedule : list nat)
    (texts : list jsstring) (log : Log) :
  (forall log p sent, o log p sent = None) ->
  Forall (fun text => strlen (stripHtml text) <= 500) texts ->
  (Translate.translateBatch cheerioText toLowerCase depth o schedule texts log).1
  = List.map (fun text => if blank text || blank (stripHtml text)
                          then text else stripHtml text) texts.
Proof.
  intros Hdown Hshort.
  assert (Ho : stateless o) by (intros l l' p sent; rewrite !Hdown; reflexivity).
  unfold Translate.translateBatch, translateBatchWith.
  pose proof (promiseAll_stateless o schedule
                (List.map (translateToTurkish depth) texts) log Ho) as H.
  assert (Hall : allFulfilled
                   (List.map (outcome o) (List.map (translateToTurkish depth) texts))
                 = inr (List.map (fun text => if blank text || blank (stripHtml text)
                                              then text else stripHtml text) texts)).
  { rewrite <- allFulfilled_inr. f_equal. rewrite !List.map_map.
    clear H. induction Hshort as [| text texts Hlen _ IH]; simpl; [reflexivity |].
    rewrite outcome_offline by assumption. rewrite IH. reflexivity. }
  rewrite Hall in H.
  destruct (promiseAll o schedule _ log) as [r log1]. simpl in H. subst r.
  reflexivity.
Qed.


End OfflineFacts.

Section DecodeFacts.

Import Route.

Variable stringOf : jsvalue -> jsstring.

Lemma collect_fragments (fragments : list (jsstring * list jsvalue)) :
  concat (List.map (asString stringOf)
            (flat_map pushed
               (List.map (fun f => VArray (VString f.1 :: f.2)) fragments)))
  = concat (List.map fst fragments).
Proof.
  induction fragments as [| [fragment rest] fragments IH]; simpl; [reflexivity |].
  destruct fragment as [| c fragment]; simpl; rewrite IH; reflexivity.
Qed.

(** X20.  For a reply that is ok and has the expected format
    [[[fragment, ...], ...], ...], both translateWithGoogle functions
    obtain the fragments joined in order; the one of the service returns
    this text unless it is blank, and then throws. *)
Theorem decodeGoogle_joins_fragments (fragments : list (jsstring * list jsvalue))
    (more : list jsvalue) (status : nat) :
  let fetched := Some {| ok := true; httpStatus := status;
                         json := Some (googleReply fragments more) |} in
  let translation := concat (List.map fst fragments) in
  routeTranslateWithGoogle stringOf fetched = Some translation
  /\ serviceTranslateWithGoogle stringOf fetched
     = if Translate.blank translation then Throw ProviderError else Ret translation.
Proof.
  intros fetched translation.
  assert (H : decodeGoogle stringOf fetched = Some translation).
  { unfold fetched, decodeGoogle, googleReply, collect; simpl.
    rewrite collect_fragments. reflexivity. }
  unfold routeTranslateWithGoogle, serviceTranslateWithGoogle.
  rewrite H. split; reflexivity.
Qed.

End DecodeFacts.

(* ------------------------------------------------------------------ *)
(** ** More instances *)

(** Two failures, then 7, with three tries and a first delay of 1000:
    delays of 1000 and 2000. *)
Lemma retryWithBackoff_first_success_witness :
  Retry.retryWithBackoff 0%Z Z.succ Z.ltb Z.pred exactTimesPow2 flaky 3 3%Z 1000%Z
  = Some (inr 7, [1000; 2000]%Z).
Proof.
  apply (retryWithBackoff_first_success 0%Z Z.succ Z.ltb Z.pred exactTimesPow2
           flaky 3%Z 1000%Z 2 7 3).
  - intros j Hj. destruct j as [| [| [| j]]]; [reflexivity | reflexivity | reflexivity | lia].
  - intros j Hj. exists j. unfold flaky.
    replace (j <? 2) with true by (symmetry; apply Nat.ltb_lt; exact Hj).
    reflexivity.
  - reflexivity.
  - lia.
Defined.

(** Three failures with three tries: the error of the third call, after
    two delays. *)
Lemma retryWithBackoff_exhausted_witness :
  Retry.retryWithBackoff 0%Z Z.succ Z.ltb Z.pred exactTimesPow2 failing 4 3%Z 1000%Z
  = Some (inl (Some 2), [1000; 2000]%Z)
  /\ (Z.ltb 2 2 = false ->
      [1000; 2000]%Z
      = Retry.waits 0%Z Z.succ Z.ltb Z.pred exactTimesPow2 3%Z 1000%Z 0 2).
Proof.
  apply (retryWithBackoff_exhausted 0%Z Z.succ Z.ltb Z.pred exactTimesPow2
           failing 3%Z 1000%Z (fun i => i) 3 4).
  - intros j Hj. destruct j as [| [| [| j]]]; [reflexivity | reflexivity | reflexivity | lia].
  - reflexivity.
  - intros j _. reflexivity.
  - lia.
Defined.

(** The run of the flaky function read back. *)
Lemma retryWithBackoff_ends_witness :
  exists k,
    k < 3
    /\ [1000; 2000]%Z = Retry.waits 0%Z Z.succ Z.ltb Z.pred exactTimesPow2 3%Z 1000%Z 0 k
    /\ (forall j, j < k ->
          Z.ltb (Retry.index 0%Z Z.succ j) 3 = true /\ exists e, flaky j = inl e)
    /\ (Z.ltb (Retry.index 0%Z Z.succ k) 3 = true /\ flaky k = inr 7).
Proof.
  apply (retryWithBackoff_ends 0%Z Z.succ Z.ltb Z.pred exactTimesPow2 flaky
           3%Z 1000%Z 3 (inr 7) [1000; 2000]%Z).
  vm_compute. reflexivity.
Defined.

(** The two chunks of the sixty sentences: 500 and 100 code units. *)
Lemma chunks_greedy_witness :
  500 < strlen (firstn 500 sixtySentences) + strlen (skipn 500 sixtySentences).
Proof.
  apply (chunks_greedy unterminatedTail 0).
  - vm_compute. reflexivity.
  - vm_compute. reflexivity.
Defined.

Lemma chunks_within_limit_witness :
  Forall (fun chunk => strlen chunk <= 500) (chunksOf unterminatedTail).
Proof.
  apply chunks_within_limit.
  apply List.Forall_forall. intros sentence Hin.
  apply Nat.leb_le.
  revert sentence Hin. apply forallb_forall. vm_compute. reflexivity.
Defined.

Lemma chunks_cover_terminated_text_witness :
  concat (chunksOf sixtySentences) = sixtySentences.
Proof.
  apply chunks_cover_terminated_text.
  - eexists _, _. split; [vm_compute; reflexivity | reflexivity].
  - exists 46%N. split; [vm_compute; reflexivity | reflexivity].
Defined.

Lemma sanitized_normal_form_witness :
  let html := js "  Bitcoin   price rises | more " in
  let clean := Sanitizer.stripHtml plainText html in
  clean = []
  \/ (10 <= strlen clean
      /\ (forall c, head clean = Some c -> isWhiteSpace c = false)
      /\ (forall c, last clean = Some c -> isWhiteSpace c = false)
      /\ (forall c, In c clean -> isWhiteSpace c = true -> c = 32%N)
      /\ (forall i, clean !! i = Some 32%N -> clean !! S i = Some 32%N -> False)).
Proof.
  intros html clean.
  apply (sanitized_normal_form plainText html html). reflexivity.
Defined.

Lemma sanitized_cut_at_pipe_witness :
  let html := js "Bitcoin price rises | more | less" in
  (forall c, In c (Sanitizer.stripHtml plainText html) ->
             In c (beforePipe html) \/ c = 32%N)
  /\ ~ In pipe (Sanitizer.stripHtml plainText html).
Proof.
  intros html.
  apply (sanitized_cut_at_pipe plainText html html).
  - reflexivity.
  - discriminate.
Defined.

Lemma long_text_chunkwise_witness :
  exists (translations : list jsstring) (log1 : Log),
    settleAll (constOracle (Some merhaba) None) []
      (List.map (translateToTurkish plainText asciiLower 0)
                (chunksOf (Sanitizer.stripHtml plainText unterminatedTail)))
    = (List.map inr translations, log1)
    /\ length translations
       = length (chunksOf (Sanitizer.stripHtml plainText unterminatedTail))
    /\ run (constOracle (Some merhaba) None) []
           (translateToTurkish plainText asciiLower 1 unterminatedTail)
       = (inr (join (js " ") translations), log1).
Proof.
  apply (long_text_chunkwise plainText asciiLower 0).
  - vm_compute. reflexivity.
  - vm_compute. reflexivity.
  - apply Nat.ltb_lt. vm_compute. reflexivity.
Defined.

Lemma short_text_result_witness :
  let text := js "Hello world how are you" in
  let o := constOracle (Some merhaba) None in
  exists (result : jsstring) (log1 : Log),
    run o [] (translateToTurkish plainText asciiLower 0 text) = (inr result, log1)
    /\ (result = text
        \/ result = Sanitizer.stripHtml plainText text
        \/ (blank result = false
            /\ 10 < strlen result
            /\ asciiLower result <> asciiLower (Sanitizer.stripHtml plainText text)
            /\ exists p log0,
                 o log0 p (Sanitizer.stripHtml plainText text) = Some result)).
Proof.
  intros text o.
  apply (short_text_result plainText asciiLower 0 o [] text).
  apply Nat.leb_le. vm_compute. reflexivity.
Defined.

Lemma route_stripHtml_idempotent_witness :
  let html := js "  Merhaba   dunya " in
  Route.stripHtml plainText (Route.stripHtml plainText html)
  = Route.stripHtml plainText html.
Proof.
  intros html.
  apply (route_stripHtml_idempotent plainText html html); reflexivity.
Defined.

(** The provider answers: status 200, and the body has been read. *)
Lemma POST_responses_witness :
  let response := Route.okResponse merhaba in
  let request1 := {| Route.body := Route.body helloRequest; Route.bodyUsed := true |} in
  (response = Route.badRequest
   \/ (Route.status response = 200 /\ Route.error response = None
       /\ exists t, Route.translation response = Some t))
  /\ (exists v text, Route.body helloRequest = Route.Json v
                     /\ Route.bodyUsed helloRequest = false
                     /\ Route.textOf v = inr text)
  /\ Route.bodyUsed request1 = true.
Proof.
  intros response request1.
  apply (POST_responses plainText (fun _ => Some merhaba) helloRequest
           request1 response).
  vm_compute. reflexivity.
Defined.

(** A body without [text]. *)
Lemma POST_bad_request_iff_witness :
  Route.POST plainText (fun _ => None)
    {| Route.body := Route.Json (Route.VObject []); Route.bodyUsed := false |}
  = (inr Route.badRequest,
     {| Route.body := Route.Json (Route.VObject []); Route.bodyUsed := true |})
  <-> forall s, Route.VUndefined = Route.VString s -> blank s = true.
Proof.
  apply (POST_bad_request_iff plainText (fun _ => None)
           (Route.VObject []) Route.VUndefined).
  reflexivity.
Defined.

Lemma translateBatch_offline_witness :
  let texts := [js "  Hello   world how are you"; js "hi"] in
  (Translate.translateBatch plainText asciiLower 0 (constOracle None None) [1; 0]
     texts []).1
  = List.map (fun text => if blank text || blank (Sanitizer.stripHtml plainText text)
                          then text else Sanitizer.stripHtml plainText text) texts.
Proof.
  intros texts.
  apply (translateBatch_offline plainText asciiLower 0 (constOracle None None)).
  - intros log p sent. destruct p; reflexivity.
  - repeat constructor; apply Nat.leb_le; vm_compute; reflexivity.
Defined.

